(** * Tic-tac-toe: win detection and the game coordinator

    A shallow embedding of [src/index.js]: the pure function
    [calculateWinner], the [Game] component's state with its two handlers
    [handleClick] and [jumpTo], and what [Game.render], [Board.render],
    [Board.renderSquare] and [Square] build: the status line, the nine
    buttons of the board and the move list, with the handlers they carry.

    The [squares] arrays are JavaScript objects: a history entry holds a
    reference to its array, [slice()] allocates a copy and
    [squares[i] = ...] writes into an array in place.  They therefore live
    in an explicit store, and history entries hold locations.  The
    [history] arrays themselves are only ever rebuilt ([slice], [concat])
    and the entry objects are never assigned to, so both are plain values. *)

From stdpp Require Import base option list finite gmap strings pretty.

(** ** Values *)

(** A square holds ['X'], ['O'] or [null]. *)
Inductive mark := X | O.

#[global] Instance mark_eq_dec : EqDecision mark.
Proof. solve_decision. Defined.

(** [None] is [null].  Reading past the end of an array, or reading a hole,
    gives [undefined] in JavaScript; the program only ever tests such a value
    for truthiness or compares it with a truthy one, where [undefined] and
    [null] behave alike, so both are [None] here. *)
Abbreviation cell := (option mark).

(** Truthiness of a square: the two one-letter strings are truthy. *)
Definition truthy (v : cell) : bool :=
  match v with Some _ => true | None => false end.

(** [v === w] *)
Definition strict_eq (v w : cell) : bool := bool_decide (v = w).

(** [squares[i]] *)
Definition js_get (squares : list cell) (i : nat) : cell :=
  default None (squares !! i).

(** [squares[i] = v]: JavaScript grows the array when [i] is past its end,
    leaving holes in between. *)
Definition js_set (squares : list cell) (i : nat) (v : cell) : list cell :=
  if decide (i < length squares) then <[i := v]> squares
  else squares ++ replicate (i - length squares) None ++ [v].

(** ** Win calculator *)

Definition lines : list (nat * nat * nat) :=
  [ (0, 1, 2); (3, 4, 5); (6, 7, 8);
    (0, 3, 6); (1, 4, 7); (2, 5, 8);
    (0, 4, 8); (2, 4, 6) ].

(** The [for] loop of [calculateWinner] over the remaining lines, with its
    early [return]. *)
Fixpoint calculateWinner_from (squares : list cell)
    (rest : list (nat * nat * nat)) : cell :=
  match rest with
  | [] => None
  | (a, b, c) :: rest' =>
      if truthy (js_get squares a)
         && strict_eq (js_get squares a) (js_get squares b)
         && strict_eq (js_get squares a) (js_get squares c)
      then js_get squares a
      else calculateWinner_from squares rest'
  end.

Definition calculateWinner (squares : list cell) : cell :=
  calculateWinner_from squares lines.

(** ** Game state *)

Definition loc := nat.

(** A history entry [{ squares : ... }] refers to its array. *)
Record entry := Entry { squares : loc }.

Record GameState := mkState {
  history : list entry;
  stepNumber : nat;
  xIsNext : bool
}.

(** The argument of [setState]: the fields it mentions. *)
Record StateUpdate := mkUpdate {
  set_history : option (list entry);
  set_stepNumber : option nat;
  set_xIsNext : option bool
}.

(** [setState] merges the given fields into the current state. *)
Definition setState (st : GameState) (u : StateUpdate) : GameState :=
  {| history := default (history st) (set_history u);
     stepNumber := default (stepNumber st) (set_stepNumber u);
     xIsNext := default (xIsNext st) (set_xIsNext u) |}.

(** The component together with the arrays its entries refer to. *)
Record world := mkWorld {
  store : gmap loc (list cell);
  state : GameState
}.

(** How a handler ends: with a [TypeError], by returning without touching
    the state, or by calling [setState]. *)
Inductive result :=
  | Throw
  | Return (h : gmap loc (list cell))
  | SetState (h : gmap loc (list cell)) (u : StateUpdate).

(** [new Game(props)]: one entry, [Array(9).fill(null)]. *)
Definition initial : world :=
  let l := fresh (dom (∅ : gmap loc (list cell))) in
  {| store := {[ l := replicate 9 None ]};
     state := {| history := [Entry l]; stepNumber := 0; xIsNext := true |} |}.

Definition handleClick (i : nat) (w : world) : result :=
  let history := take (stepNumber (state w) + 1) (history (state w)) in
  match history !! (length history - 1) with
  | None => Throw
  | Some current =>
      match store w !! squares current with
      | None => Throw
      | Some arr =>
          let l := fresh (dom (store w)) in
          let h := <[l := arr]> (store w) in
          if truthy (calculateWinner arr) || truthy (js_get arr i)
          then Return h
          else
            let v := Some (if xIsNext (state w) then X else O) in
            let h' := <[l := js_set arr i v]> h in
            SetState h'
              {| set_history := Some (history ++ [Entry l]);
                 set_stepNumber := Some (length history);
                 set_xIsNext := Some (negb (xIsNext (state w))) |}
      end
  end.

Definition jumpTo (step : nat) (w : world) : result :=
  SetState (store w)
    {| set_history := None;
       set_stepNumber := Some step;
       set_xIsNext := Some (step mod 2 =? 0) |}.

(** The world after a handler has run; [None] when it threw.  This is the
    merge of [setState] alone; the rendering that React starts after it is
    [render], and [update] below puts the two together. *)
Definition commit (w : world) (r : result) : option world :=
  match r with
  | Throw => None
  | Return h => Some {| store := h; state := state w |}
  | SetState h u => Some {| store := h; state := setState (state w) u |}
  end.

(** ** Rendering: the move list *)

Record move_item := mkMove {
  key : nat;
  desc : string;
  onClick : world → result
}.

Definition moves (st : GameState) : list move_item :=
  imap (λ move _,
          {| key := move;
             desc := match move with
                     | 0 => "Go to game start"%string
                     | _ => ("Go to move # " +:+ pretty move)%string
                     end;
             onClick := jumpTo move |})
       (history st).

(** The board shown by [render]: [history[stepNumber].squares]. *)
Definition currentBoard (w : world) : option (list cell) :=
  e ← history (state w) !! stepNumber (state w); store w !! squares e.

(** The board of the entry at index [k]. *)
Definition boardAt (w : world) (k : nat) : option (list cell) :=
  e ← history (state w) !! k; store w !! squares e.

(** ** Events and reachable worlds *)

Inductive event := Click (i : nat) | Jump (move : nat).

Definition dispatch (e : event) (w : world) : option world :=
  match e with
  | Click i => commit w (handleClick i w)
  | Jump move => commit w (jumpTo move w)
  end.

(** The move list only offers the steps that exist; [handleClick] is defined
    for every index, so every click is allowed. *)
Definition offered (w : world) (e : event) : Prop :=
  match e with
  | Click _ => True
  | Jump move => move < length (history (state w))
  end.

Inductive reachable : world → Prop :=
  | reachable_initial : reachable initial
  | reachable_step w e w' :
      reachable w → offered w e → dispatch e w = Some w' → reachable w'.

#[global] Instance offered_dec w e : Decision (offered w e).
Proof. destruct e; simpl; apply _. Defined.

(** Running a list of events from a world, each one offered when it is
    dispatched. *)
Fixpoint run (es : list event) (w : world) : option world :=
  match es with
  | [] => Some w
  | e :: es' =>
      if decide (offered w e) then w' ← dispatch e w; run es' w' else None
  end.

(** A click is accepted when [handleClick] gets as far as [setState]. *)
Definition accepted (i : nat) (w : world) : Prop :=
  match handleClick i w with SetState _ _ => True | _ => False end.

#[global] Instance accepted_dec i w : Decision (accepted i w).
Proof. unfold accepted. destruct (handleClick i w); apply _. Defined.

(** ** Vocabulary of the specification *)

#[global] Instance mark_finite : Finite mark.
Proof.
  refine {| enum := [X; O] |}.
  - by apply (bool_decide_unpack _).
  - intros []; by apply (bool_decide_unpack _).
Defined.

(** The three squares of a line all hold the mark [m]. *)
Definition line_match (squares : list cell) (l : nat * nat * nat) (m : mark)
    : Prop :=
  squares !! l.1.1 = Some (Some m) ∧
  squares !! l.1.2 = Some (Some m) ∧
  squares !! l.2 = Some (Some m).

#[global] Instance line_match_dec squares l m :
  Decision (line_match squares l m).
Proof. unfold line_match. apply _. Defined.

(** No mark fills the line. *)
Definition line_open (squares : list cell) (l : nat * nat * nat) : Prop :=
  ∀ m, ¬ line_match squares l m.

#[global] Instance line_open_dec squares l : Decision (line_open squares l).
Proof. unfold line_open. apply _. Defined.

(** Every square of the board is taken. *)
Definition full (squares : list cell) : Prop :=
  Forall (λ v, v ≠ None) squares.

(** What holds of every world the game can be in: the step pointer selects an
    entry, every entry's array is allocated, and the stored flag agrees with
    the parity of the step pointer. *)
Record game_inv (w : world) : Prop := {
  inv_step : stepNumber (state w) < length (history (state w));
  inv_alloc : ∀ e, e ∈ history (state w) → is_Some (store w !! squares e);
  inv_parity : xIsNext (state w) = Nat.even (stepNumber (state w))
}.

(** The labels in the wording of the specification. *)
Definition spec_label (i : nat) : string :=
  match i with
  | 0 => "go to game start"
  | _ => "go to move #" +:+ pretty i
  end%string.

(** ** Concrete boards and games *)

(** Two complete rows: X on top, O in the middle. *)
Definition board_two_rows : list cell :=
  [Some X; Some X; Some X; Some O; Some O; Some O; None; None; None].

(** Top row empty, O in the middle row, X in the bottom row. *)
Definition board_lower_rows : list cell :=
  [None; None; None; Some O; Some O; Some O; Some X; Some X; Some X].

(** A full board without a line. *)
Definition board_draw : list cell :=
  [Some X; Some O; Some X; Some X; Some O; Some O; Some O; Some X; Some X].

(** The board of the third scenario of the specification. *)
Definition board_scenario3 : list cell :=
  [Some X; Some O; Some X; Some X; Some O; None; Some O; None; Some X].

(** The same marks with the O of square 6 in square 7, which completes the
    middle column. *)
Definition board_middle_column : list cell :=
  [Some X; Some O; Some X; Some X; Some O; None; None; Some O; Some X].

(** The world after the given events, starting a new game. *)
Definition after (es : list event) : world := default initial (run es initial).

(** The game won by X in the left column, and the same game after going back
    to step 2. *)
Definition won_game : world :=
  after [Click 0; Click 1; Click 3; Click 4; Click 6].

Definition won_game_at_2 : world :=
  after [Click 0; Click 1; Click 3; Click 4; Click 6; Jump 2].

(** ** Rendering: squares, board and status *)

(** The [<button>] a [Square] renders: its class, its click handler and the
    mark it shows. *)
Record button := mkButton {
  className : string;
  button_onClick : world → result;
  children : cell
}.

(** [Square(props)] with [props.value] and [props.onClick]. *)
Definition Square (value : cell) (onClick : world → result) : button :=
  {| className := "square"; button_onClick := onClick; children := value |}.

(** [Board.renderSquare(i)], with the props [squares] and [onClick] of the
    board. *)
Definition renderSquare (squares : list cell) (onClick : nat → world → result)
    (i : nat) : button :=
  Square (js_get squares i) (onClick i).

(** [Board.render()]: three rows of three squares. *)
Definition Board_render (squares : list cell)
    (onClick : nat → world → result) : list (list button) :=
  [ [ renderSquare squares onClick 0; renderSquare squares onClick 1;
      renderSquare squares onClick 2 ];
    [ renderSquare squares onClick 3; renderSquare squares onClick 4;
      renderSquare squares onClick 5 ];
    [ renderSquare squares onClick 6; renderSquare squares onClick 7;
      renderSquare squares onClick 8 ] ].

(** The text of a mark. *)
Definition mark_text (m : mark) : string :=
  match m with X => "X" | O => "O" end.

(** What [Game.render()] returns: the status line, the board and the move
    list. *)
Record view := mkView {
  status : string;
  game_board : list (list button);
  move_list : list move_item
}.

(** [Game.render()]; [None] when reading [current.squares] throws because
    [history[stepNumber]] is [undefined]. *)
Definition render (w : world) : option view :=
  current ← history (state w) !! stepNumber (state w);
  arr ← store w !! squares current;
  let winner := calculateWinner arr in
  let status :=
    match winner with
    | Some m => "Winner: " +:+ mark_text m
    | None => "Next player: " +:+ (if xIsNext (state w) then "X" else "O")
    end%string in
  Some {| status := status;
          game_board := Board_render arr handleClick;
          move_list := moves (state w) |}.

(** An event as the mounted component goes through it: the handler runs and
    React renders the new state.  [None] when the handler or the rendering
    throws; an error in [render] unmounts the component, which then takes no
    further events. *)
Definition update (e : event) (w : world) : option world :=
  w' ← dispatch e w; _ ← render w'; Some w'.

(** The click handlers a view offers: the nine squares, then the moves. *)
Definition handlers (v : view) : list (world → result) :=
  (button_onClick <$> concat (game_board v)) ++ (onClick <$> move_list v).

(** The worlds a user can bring about: each step runs a handler of the view
    rendered for the world it starts from. *)
Inductive ui_reachable : world → Prop :=
  | ui_reachable_initial : ui_reachable initial
  | ui_reachable_step w v f w' :
      ui_reachable w → render w = Some v → f ∈ handlers v →
      commit w (f w) = Some w' → ui_reachable w'.

(** The events the rendered view offers: clicks on the squares 0 to 8 and
    jumps to the steps of the history. *)
Definition ui_offered (w : world) (e : event) : Prop :=
  match e with
  | Click i => i < 9
  | Jump move => move < length (history (state w))
  end.

#[global] Instance ui_offered_dec w e : Decision (ui_offered w e).
Proof. destruct e; simpl; apply _. Defined.

(** Running a list of events, each one offered by the view when it is
    dispatched. *)
Fixpoint ui_run (es : list event) (w : world) : option world :=
  match es with
  | [] => Some w
  | e :: es' =>
      if decide (ui_offered w e) then w' ← dispatch e w; ui_run es' w'
      else None
  end.

(** The handler behind an event. *)
Definition handler_of (e : event) : world → result :=
  match e with Click i => handleClick i | Jump move => jumpTo move end.

(** A game of nine moves that nobody wins. *)
Definition drawn_game : world :=
  after [Click 0; Click 1; Click 2; Click 4; Click 3; Click 5; Click 7;
         Click 6; Click 8].

(** ** Vocabulary for the properties of games *)

(** The other player's mark. *)
Definition other (m : mark) : mark :=
  match m with X => O | O => X end.

(** The mark placed by the move made at step [k]. *)
Definition mover (k : nat) : mark := if Nat.even k then X else O.

(** The board with the two marks exchanged. *)
Definition swap_marks (squares : list cell) : list cell :=
  (λ v : cell, other <$> v) <$> squares.

(** How many squares hold the mark [m]. *)
Definition count_mark (m : mark) (squares : list cell) : nat :=
  length (filter (λ v, v = Some m) squares).

(** [b'] comes from [b] by the move of step [k]: [b] has no winner, some empty
    square of [b] receives the mover's mark. *)
Definition legal_move (k : nat) (b b' : list cell) : Prop :=
  ∃ i, calculateWinner b = None ∧ js_get b i = None ∧
       b' = js_set b i (Some (mover k)).

(** ** The win calculator *)

Section calculateWinner.
Implicit Types (squares : list cell) (l : nat * nat * nat) (m : mark).

Lemma js_get_Some squares i m :
  js_get squares i = Some m ↔ squares !! i = Some (Some m).
Proof.
  unfold js_get. destruct (squares !! i) as [[?|]|]; simpl; naive_solver.
Qed.

(** The test of the loop body succeeds exactly on a matching line. *)
Lemma line_test squares a b c :
  truthy (js_get squares a)
    && strict_eq (js_get squares a) (js_get squares b)
    && strict_eq (js_get squares a) (js_get squares c) = true
  ↔ ∃ m, line_match squares (a, b, c) m.
Proof.
  unfold strict_eq, line_match; simpl.
  rewrite !andb_true_iff, !bool_decide_eq_true. split.
  - intros [[Ha Hb] Hc]. destruct (js_get squares a) as [m|] eqn:Hm; [|done].
    exists m. symmetry in Hb, Hc. by rewrite <- !js_get_Some.
  - intros (m & Ha & Hb & Hc). apply js_get_Some in Ha, Hb, Hc.
    by rewrite Ha, Hb, Hc.
Qed.

Lemma calculateWinner_from_open squares ls :
  Forall (line_open squares) ls → calculateWinner_from squares ls = None.
Proof.
  induction 1 as [|[[a b] c] ls Hopen _ IH]; simpl; [done|].
  destruct (_ && _ && _) eqn:Htest; [|done].
  apply line_test in Htest as [m Hm]. by destruct (Hopen m).
Qed.

Lemma calculateWinner_from_first squares pre l post m :
  Forall (line_open squares) pre → line_match squares l m →
  calculateWinner_from squares (pre ++ l :: post) = Some m.
Proof.
  intros Hpre Hl. induction Hpre as [|[[a b] c] pre Hopen _ IH]; simpl.
  - destruct l as [[a b] c].
    assert (Htest : ∃ m, line_match squares (a, b, c) m) by eauto.
    apply line_test in Htest. rewrite Htest.
    apply js_get_Some, Hl.
  - destruct (_ && _ && _) eqn:Htest; [|done].
    apply line_test in Htest as [m' Hm']. by destruct (Hopen m').
Qed.

(** A list of lines either has a first matching line or none at all. *)
Lemma first_match squares ls :
  Forall (line_open squares) ls ∨
  ∃ pre l post m, ls = pre ++ l :: post ∧
    Forall (line_open squares) pre ∧ line_match squares l m.
Proof.
  induction ls as [|l ls IH]; [by left|].
  destruct (decide (line_open squares l)) as [Hopen|Hmatch].
  - destruct IH as [IH|(pre & l0 & post & m & -> & Hpre & Hl0)].
    + left. by constructor.
    + right. exists (l :: pre), l0, post, m. split_and!; [done| |done].
      by constructor.
  - right. exists [], l, ls.
    destruct (decide (line_match squares l X)) as [HX|HX]; [by exists X|].
    destruct (decide (line_match squares l O)) as [HO|HO]; [by exists O|].
    destruct Hmatch. by intros [].
Qed.
End calculateWinner.

(** ** The game coordinator *)

Section coordinator.
Implicit Types (w : world) (i k : nat) (board : list cell).

Lemma fresh_store w : store w !! fresh (dom (store w)) = None.
Proof. apply not_elem_of_dom, is_fresh. Qed.

(** The entry [handleClick] calls [current] is the one at the step
    pointer. *)
Lemma current_entry w :
  stepNumber (state w) < length (history (state w)) →
  let sliced := take (stepNumber (state w) + 1) (history (state w)) in
  length sliced = stepNumber (state w) + 1 ∧
  sliced !! (length sliced - 1) = history (state w) !! stepNumber (state w).
Proof.
  intros Hlt sliced. assert (Hlen : length sliced = stepNumber (state w) + 1).
  { unfold sliced. rewrite length_take. lia. }
  split; [done|]. rewrite Hlen. unfold sliced.
  replace (stepNumber (state w) + 1 - 1) with (stepNumber (state w)) by lia.
  apply lookup_take_lt. lia.
Qed.

(** [handleClick] on a world whose step pointer selects an allocated
    board. *)
Lemma handleClick_current w i board :
  currentBoard w = Some board →
  handleClick i w =
    let l := fresh (dom (store w)) in
    if truthy (calculateWinner board) || truthy (js_get board i)
    then Return (<[l := board]> (store w))
    else SetState
           (<[l := js_set board i (Some (if xIsNext (state w) then X else O))]>
              (<[l := board]> (store w)))
           {| set_history :=
                Some (take (stepNumber (state w) + 1) (history (state w))
                        ++ [Entry l]);
              set_stepNumber := Some (stepNumber (state w) + 1);
              set_xIsNext := Some (negb (xIsNext (state w))) |}.
Proof.
  unfold currentBoard. intros Hcur.
  destruct (history (state w) !! stepNumber (state w)) as [e|] eqn:He; [|done].
  simpl in Hcur. apply lookup_lt_Some in He as Hlt.
  destruct (current_entry w Hlt) as [Hlen Hlast].
  unfold handleClick. rewrite Hlast, He, Hcur, Hlen. done.
Qed.

Lemma currentBoard_boardAt w : currentBoard w = boardAt w (stepNumber (state w)).
Proof. done. Qed.

Lemma game_inv_currentBoard w : game_inv w → is_Some (currentBoard w).
Proof.
  intros [Hstep Halloc _]. unfold currentBoard.
  destruct (lookup_lt_is_Some_2 _ _ Hstep) as [e He]. rewrite He. simpl.
  apply Halloc. by eapply list_elem_of_lookup_2.
Qed.

Lemma game_inv_initial : game_inv initial.
Proof.
  split; simpl.
  - lia.
  - intros e ->%list_elem_of_singleton. simpl. by rewrite lookup_singleton_eq.
  - done.
Qed.

Lemma even_succ_negb n : Nat.even (n + 1) = negb (Nat.even n).
Proof. by rewrite Nat.add_1_r, Nat.even_succ, <- Nat.negb_even. Qed.

Lemma mod2_even n : (n mod 2 =? 0) = Nat.even n.
Proof.
  destruct (Nat.even n) eqn:Hev.
  - apply Nat.even_spec in Hev as [m ->]. apply Nat.eqb_eq.
    by rewrite Nat.mul_comm, Nat.Div0.mod_mul.
  - apply Nat.eqb_neq. intros Hmod.
    apply Nat.Div0.mod_divides in Hmod as [m ->].
    by rewrite Nat.even_mul in Hev.
Qed.

Lemma game_inv_click w i w' :
  game_inv w → dispatch (Click i) w = Some w' → game_inv w'.
Proof.
  intros Hinv Hd. destruct (game_inv_currentBoard w Hinv) as [board Hcur].
  destruct Hinv as [Hstep Halloc Hpar].
  simpl in Hd. rewrite (handleClick_current _ _ _ Hcur) in Hd. simpl in Hd.
  pose proof (fresh_store w) as Hfresh.
  destruct (_ || _); simplify_eq/=.
  - split; simpl; [done| |done].
    intros e He. destruct (Halloc e He) as [b Hb].
    exists b. rewrite lookup_insert_ne; [done|congruence].
  - split; simpl.
    + rewrite length_app, length_take. simpl. lia.
    + intros e [He| ->%list_elem_of_singleton]%elem_of_app.
      * apply subseteq_take in He.
        destruct (Halloc e He) as [b Hb]. exists b.
        rewrite !lookup_insert_ne; [done|congruence..].
      * simpl. rewrite lookup_insert_eq. eauto.
    + by rewrite Hpar, even_succ_negb.
Qed.

Lemma game_inv_jump w k w' :
  game_inv w → k < length (history (state w)) →
  dispatch (Jump k) w = Some w' → game_inv w'.
Proof.
  intros [Hstep Halloc Hpar] Hk Hd. simplify_eq/=.
  split; simpl; [done..|apply mod2_even].
Qed.

Lemma reachable_inv w : reachable w → game_inv w.
Proof.
  induction 1 as [|w [i|k] w' _ IH Hoff Hd].
  - apply game_inv_initial.
  - by eapply game_inv_click.
  - by eapply game_inv_jump.
Qed.

Lemma run_reachable es w w' : reachable w → run es w = Some w' → reachable w'.
Proof.
  revert w. induction es as [|e es IH]; intros w Hw Hrun; simpl in Hrun.
  - by simplify_eq.
  - case_decide as Hoff; [|done].
    destruct (dispatch e w) as [w1|] eqn:Hd; [|done]. simpl in Hrun.
    eapply IH; [|done]. by eapply reachable_step.
Qed.

(** Every reachable world is the outcome of a run from the start. *)
Lemma reachable_run w : reachable w → ∃ es, run es initial = Some w.
Proof.
  induction 1 as [|w e w' _ [es IH] Hoff Hd]; [by exists []|].
  exists (es ++ [e]). clear -IH Hoff Hd. revert IH. generalize initial.
  induction es as [|e0 es IHes]; intros w0 Hrun; simpl in *.
  - simplify_eq. rewrite decide_True by done. by rewrite Hd.
  - case_decide; [|done]. destruct (dispatch e0 w0); [|done]. by apply IHes.
Qed.
End coordinator.

(** ** Array writes *)

Section js_set.
Implicit Types (board : list cell) (i j : nat) (v : cell).

Lemma js_set_in_range board i v :
  i < length board → js_set board i v = <[i := v]> board.
Proof. intros Hi. unfold js_set. by rewrite decide_True. Qed.

Lemma js_get_set_eq board i v : js_get (js_set board i v) i = v.
Proof.
  unfold js_get, js_set. case_decide as Hi.
  - by rewrite list_lookup_insert_eq.
  - rewrite lookup_app_r by lia.
    rewrite lookup_app_r; rewrite length_replicate; [|lia].
    by rewrite Nat.sub_diag.
Qed.

Lemma js_get_set_ne board i j v :
  j ≠ i → js_get (js_set board i v) j = js_get board j.
Proof.
  intros Hne. unfold js_get, js_set. case_decide as Hi.
  - by rewrite list_lookup_insert_ne.
  - destruct (decide (j < length board)) as [Hj|Hj].
    { by rewrite lookup_app_l. }
    rewrite (lookup_ge_None_2 board j), lookup_app_r by lia.
    destruct (decide (j - length board < i - length board)) as [Hlt|Hge].
    + rewrite lookup_app_l by (rewrite length_replicate; lia).
      by rewrite lookup_replicate_2.
    + rewrite lookup_app_r; rewrite length_replicate; [|lia].
      rewrite lookup_ge_None_2; [done|]. simpl. lia.
Qed.
End js_set.

(** ** Accepted clicks *)

Section clicks.
Implicit Types (w : world) (i k : nat) (board : list cell).

Lemma truthy_false (v : cell) : truthy v = false ↔ v = None.
Proof. destruct v; naive_solver. Qed.

Lemma accepted_iff w i board :
  currentBoard w = Some board →
  accepted i w ↔ calculateWinner board = None ∧ js_get board i = None.
Proof.
  intros Hcur. unfold accepted. rewrite (handleClick_current _ _ _ Hcur).
  simpl. rewrite <- !truthy_false, <- orb_false_iff.
  by destruct (_ || _).
Qed.

(** The world an accepted click leads to. *)
Lemma dispatch_accepted w i board :
  currentBoard w = Some board → accepted i w →
  let l := fresh (dom (store w)) in
  dispatch (Click i) w = Some
    {| store :=
         <[l := js_set board i (Some (if xIsNext (state w) then X else O))]>
           (store w);
       state :=
         {| history :=
              take (stepNumber (state w) + 1) (history (state w)) ++ [Entry l];
            stepNumber := stepNumber (state w) + 1;
            xIsNext := negb (xIsNext (state w)) |} |}.
Proof.
  intros Hcur Hacc. unfold accepted in Hacc. simpl.
  rewrite (handleClick_current _ _ _ Hcur) in *. simpl in *.
  destruct (_ || _); [done|]. simpl. by rewrite insert_insert_eq.
Qed.

(** The world an ignored click leads to. *)
Lemma handleClick_rejected w i board :
  currentBoard w = Some board → ¬ accepted i w →
  handleClick i w = Return (<[fresh (dom (store w)) := board]> (store w)).
Proof.
  intros Hcur Hacc. unfold accepted in Hacc.
  rewrite (handleClick_current _ _ _ Hcur) in *. simpl in *.
  by destruct (_ || _).
Qed.

(** A jump never throws and touches two fields only. *)
Lemma jumpTo_frame w k :
  ∃ w', dispatch (Jump k) w = Some w' ∧
    stepNumber (state w') = k ∧
    history (state w') = history (state w) ∧
    store w' = store w.
Proof. by eexists. Qed.

Lemma store_alloc_subseteq w (v : list cell) :
  store w ⊆ <[fresh (dom (store w)) := v]> (store w).
Proof. apply insert_subseteq, fresh_store. Qed.

(** Boards of entries that stay in place are not disturbed by
    allocation. *)
Lemma boardAt_preserved w w' k :
  game_inv w → store w ⊆ store w' →
  history (state w') !! k = history (state w) !! k →
  boardAt w' k = boardAt w k.
Proof.
  intros [_ Halloc _] Hsub Hk. unfold boardAt. rewrite Hk.
  destruct (history (state w) !! k) as [e|] eqn:He; [simpl|done].
  destruct (Halloc e) as [b Hb]; [by eapply list_elem_of_lookup_2|].
  rewrite Hb. by eapply lookup_weaken.
Qed.
End clicks.

(** ** The scenarios of the specification *)

Example scenario_empty_board : calculateWinner (replicate 9 None) = None.
Proof. reflexivity. Qed.

Example scenario_top_row :
  calculateWinner
    [Some X; Some X; Some X; Some O; Some O; None; None; None; None] = Some X.
Proof. reflexivity. Qed.

Example scenario_same_square_twice :
  currentBoard (after [Click 0; Click 0])
    = Some (<[0 := Some X]> (replicate 9 None)) ∧
  state (after [Click 0; Click 0]) = state (after [Click 0]).
Proof. by vm_compute. Qed.

Example scenario_left_column :
  (calculateWinner <$> currentBoard won_game) = Some (Some X) ∧
  Forall (λ i, ¬ accepted i won_game) (seq 0 9).
Proof.
  split; [by vm_compute|]. apply (bool_decide_unpack _). by vm_compute.
Qed.

Example scenario_replay_from_step_1 :
  length (history (state (after [Click 0; Click 1; Click 2]))) = 4 ∧
  length (history (state (after [Click 0; Click 1; Click 2; Jump 1; Click 4])))
    = 3.
Proof. by vm_compute. Qed.

Example move_label_decimal :
  desc <$> moves (mkState (replicate 13 (Entry 0)) 0 true) !! 12
  = Some "Go to move # 12"%string.
Proof. by vm_compute. Qed.

(** ** Properties of the win calculator *)

(** The rows, columns and diagonals of the grid are the triples the loop
    tests. *)
Lemma grid_line_in_lines (l : nat * nat * nat) :
  (∃ r, r < 3 ∧ l = (3 * r, 3 * r + 1, 3 * r + 2)) ∨
  (∃ c, c < 3 ∧ l = (c, c + 3, c + 6)) ∨
  l = (0, 4, 8) ∨ l = (2, 4, 6) →
  l ∈ lines.
Proof.
  intros [(r & Hr & ->)|[(c & Hc & ->)|[->| ->]]].
  - destruct r as [|[|[|r]]]; [| | |lia]; by apply (bool_decide_unpack _).
  - destruct c as [|[|[|c]]]; [| | |lia]; by apply (bool_decide_unpack _).
  - by apply (bool_decide_unpack _).
  - by apply (bool_decide_unpack _).
Qed.

(** What the loop returns when some line matches, in terms of its table. *)
Lemma calculateWinner_lines (squares : list cell) l m :
  l ∈ lines → line_match squares l m →
  (∃ pre l0 post m0,
     lines = pre ++ l0 :: post ∧
     Forall (line_open squares) pre ∧ line_match squares l0 m0 ∧
     calculateWinner squares = Some m0) ∧
  (∀ pre post,
     lines = pre ++ l :: post → Forall (line_open squares) pre →
     calculateWinner squares = Some m) ∧
  ((∀ l' m', l' ∈ lines → line_match squares l' m' → m' = m) →
   calculateWinner squares = Some m).
Proof.
  intros Hl Hm.
  destruct (first_match squares lines)
    as [Hopen|(pre & l0 & post & m0 & Hlines & Hpre & Hl0)].
  { rewrite Forall_forall in Hopen. by destruct (Hopen l Hl m). }
  assert (Hwin : calculateWinner squares = Some m0).
  { unfold calculateWinner. rewrite Hlines.
    by apply calculateWinner_from_first. }
  split_and!.
  - by exists pre, l0, post, m0.
  - intros pre' post' Hsplit Hpre'. unfold calculateWinner. rewrite Hsplit.
    by apply calculateWinner_from_first.
  - intros Huniq. rewrite Hwin. f_equal. apply (Huniq l0); [|done].
    rewrite Hlines, elem_of_app, elem_of_cons. auto.
Qed.

(** C1: on a 9-cell board on which a row [(3r, 3r+1, 3r+2)], a column
    [(c, c+3, c+6)] or a diagonal [(0,4,8)], [(2,4,6)] holds three equal
    marks, [calculateWinner] returns the mark of the first matching triple in
    the order [0,1,2], [3,4,5], [6,7,8], [0,3,6], [1,4,7], [2,5,8], [0,4,8],
    [2,4,6]: such a first triple exists; when the given triple is itself the
    first that matches, its mark is returned; and when every matching triple
    carries the same mark, that mark is returned. *)
Theorem calculateWinner_first_match (squares : list cell) l m :
  length squares = 9 →
  ((∃ r, r < 3 ∧ l = (3 * r, 3 * r + 1, 3 * r + 2)) ∨
   (∃ c, c < 3 ∧ l = (c, c + 3, c + 6)) ∨
   l = (0, 4, 8) ∨ l = (2, 4, 6)) →
  line_match squares l m →
  (∃ pre l0 post m0,
     [(0, 1, 2); (3, 4, 5); (6, 7, 8); (0, 3, 6); (1, 4, 7); (2, 5, 8);
      (0, 4, 8); (2, 4, 6)]
     = pre ++ l0 :: post ∧
     Forall (line_open squares) pre ∧ line_match squares l0 m0 ∧
     calculateWinner squares = Some m0) ∧
  (∀ pre post,
     [(0, 1, 2); (3, 4, 5); (6, 7, 8); (0, 3, 6); (1, 4, 7); (2, 5, 8);
      (0, 4, 8); (2, 4, 6)]
     = pre ++ l :: post →
     Forall (line_open squares) pre →
     calculateWinner squares = Some m) ∧
  ((∀ l' m',
      l' ∈ [(0, 1, 2); (3, 4, 5); (6, 7, 8); (0, 3, 6); (1, 4, 7); (2, 5, 8);
      (0, 4, 8); (2, 4, 6)] →
      line_match squares l' m' → m' = m) →
   calculateWinner squares = Some m).
Proof.
  intros _ Hl%grid_line_in_lines Hm.
  exact (calculateWinner_lines squares l m Hl Hm).
Qed.

Lemma calculateWinner_first_match_witness :
  length board_lower_rows = 9 ∧
  line_match board_lower_rows (3, 4, 5) O ∧
  line_match board_lower_rows (6, 7, 8) X ∧
  calculateWinner board_lower_rows = Some O.
Proof.
  assert (H1 : length board_lower_rows = 9) by reflexivity.
  assert (H2 : (∃ r, r < 3 ∧ (3, 4, 5) = (3 * r, 3 * r + 1, 3 * r + 2)) ∨
               (∃ c, c < 3 ∧ (3, 4, 5) = (c, c + 3, c + 6)) ∨
               (3, 4, 5) = (0, 4, 8) ∨ (3, 4, 5) = (2, 4, 6)).
  { left. exists 1. split; [lia|reflexivity]. }
  assert (H3 : line_match board_lower_rows (3, 4, 5) O)
    by (apply (bool_decide_unpack _); by vm_compute).
  assert (H4 : line_match board_lower_rows (6, 7, 8) X)
    by (apply (bool_decide_unpack _); by vm_compute).
  assert (H5 : Forall (line_open board_lower_rows) [(0, 1, 2)])
    by (apply (bool_decide_unpack _); by vm_compute).
  exact (conj H1 (conj H3 (conj H4
    (proj1 (proj2 (calculateWinner_first_match board_lower_rows (3, 4, 5) O
                     H1 H2 H3))
       [(0, 1, 2)]
       [(6, 7, 8); (0, 3, 6); (1, 4, 7); (2, 5, 8); (0, 4, 8); (2, 4, 6)]
       eq_refl H5)))).
Defined.

(** C2: on a 9-cell board where no line holds three equal marks,
    [calculateWinner] returns [null], as it does on the empty board; a full
    board without a line gets no answer of its own. *)
Theorem calculateWinner_no_match (squares : list cell) :
  length squares = 9 → Forall (line_open squares) lines →
  calculateWinner squares = None ∧
  calculateWinner (replicate 9 None) = None ∧
  (full squares → calculateWinner squares = calculateWinner (replicate 9 None)).
Proof.
  intros _ Hopen.
  assert (H1 : calculateWinner squares = None)
    by by apply calculateWinner_from_open.
  by rewrite H1.
Qed.

Lemma calculateWinner_no_match_witness :
  length board_draw = 9 ∧ Forall (line_open board_draw) lines ∧ full board_draw ∧
  calculateWinner board_draw = None ∧
  calculateWinner (replicate 9 None) = None ∧
  (full board_draw →
   calculateWinner board_draw = calculateWinner (replicate 9 None)).
Proof.
  assert (H1 : length board_draw = 9) by reflexivity.
  assert (H2 : Forall (line_open board_draw) lines)
    by (apply (bool_decide_unpack _); by vm_compute).
  assert (H3 : full board_draw) by (by repeat constructor).
  exact (conj H1 (conj H2 (conj H3 (calculateWinner_no_match board_draw H1 H2)))).
Defined.

(** Against C3 as it is worded: the scenario board is not won by O. *)
Lemma calculateWinner_scenario3_not_O : calculateWinner board_scenario3 ≠ Some O.
Proof. by vm_compute. Qed.

(** C3, amended: on the board [X,O,X,X,O,_,O,_,X] square 7 is empty, the
    middle column holds O, O, empty and [calculateWinner] returns [null]; with
    the O of square 6 moved to square 7 the column is complete and the result
    is O. *)
Theorem calculateWinner_scenario3 :
  calculateWinner board_scenario3 = None ∧
  js_get board_scenario3 7 = None ∧
  calculateWinner board_middle_column = Some O.
Proof. by vm_compute. Qed.

(** ** Properties of the game coordinator *)

(** C4: in a reachable world, a click on a square while the shown board has a
    winner, or on a square that is taken, returns before [setState]: nothing
    is thrown, [history], [stepNumber] and [xIsNext] stay as they are, and so
    does every stored board. *)
Theorem handleClick_ignored w i board :
  reachable w → currentBoard w = Some board →
  calculateWinner board ≠ None ∨ js_get board i ≠ None →
  ∃ h w',
    handleClick i w = Return h ∧
    dispatch (Click i) w = Some w' ∧
    history (state w') = history (state w) ∧
    stepNumber (state w') = stepNumber (state w) ∧
    xIsNext (state w') = xIsNext (state w) ∧
    store w ⊆ store w' ∧
    ∀ k, boardAt w' k = boardAt w k.
Proof.
  intros Hreach Hcur Hblocked. apply reachable_inv in Hreach as Hinv.
  assert (Hrej : ¬ accepted i w).
  { rewrite (accepted_iff _ _ _ Hcur). tauto. }
  pose proof (handleClick_rejected _ _ _ Hcur Hrej) as Hret.
  eexists _, _. split; [exact Hret|]. simpl. rewrite Hret. simpl.
  split_and!; try done.
  - apply store_alloc_subseteq.
  - intros k. apply boardAt_preserved; [done| |done]. apply store_alloc_subseteq.
Qed.

Lemma handleClick_ignored_witness :
  reachable (after [Click 0]) ∧
  ∃ h w',
    handleClick 0 (after [Click 0]) = Return h ∧
    dispatch (Click 0) (after [Click 0]) = Some w' ∧
    history (state w') = history (state (after [Click 0])) ∧
    stepNumber (state w') = stepNumber (state (after [Click 0])) ∧
    xIsNext (state w') = xIsNext (state (after [Click 0])) ∧
    store (after [Click 0]) ⊆ store w' ∧
    ∀ k, boardAt w' k = boardAt (after [Click 0]) k.
Proof.
  assert (H1 : reachable (after [Click 0])).
  { apply (run_reachable [Click 0] initial); [constructor|]. by vm_compute. }
  assert (H2 : currentBoard (after [Click 0]) =
               Some (<[0 := Some X]> (replicate 9 None)))
    by (by vm_compute).
  assert (H3 : calculateWinner (<[0 := Some X]> (replicate 9 None)) ≠ None
               ∨ js_get (<[0 := Some X]> (replicate 9 None)) 0 ≠ None)
    by (by right).
  exact (conj H1 (handleClick_ignored _ 0 _ H1 H2 H3)).
Defined.

(** C5: in a reachable world with [L] entries, a jump to [k < L - 1] followed
    by an accepted click leaves [k + 2] entries: the first [k + 1] are the
    entries from before the jump, with their boards, the later ones are gone,
    and the step pointer is [k + 1], the index of the new entry. *)
Theorem jump_then_click_truncates w k i w1 :
  reachable w → k < length (history (state w)) - 1 →
  dispatch (Jump k) w = Some w1 → accepted i w1 →
  ∃ w2 e,
    dispatch (Click i) w1 = Some w2 ∧
    length (history (state w2)) = k + 2 ∧
    history (state w2) = take (k + 1) (history (state w)) ++ [e] ∧
    (∀ j, j ≤ k → history (state w2) !! j = history (state w) !! j) ∧
    (∀ j, j ≤ k → boardAt w2 j = boardAt w j) ∧
    (e ∉ history (state w)) ∧
    stepNumber (state w2) = k + 1 ∧
    history (state w2) !! stepNumber (state w2) = Some e.
Proof.
  intros Hreach Hk Hjump Hacc.
  assert (Hreach1 : reachable w1).
  { eapply reachable_step; [exact Hreach| |exact Hjump]. simpl. lia. }
  apply reachable_inv in Hreach as Hinv. apply reachable_inv in Hreach1 as Hinv1.
  destruct (game_inv_currentBoard _ Hinv1) as [board Hcur].
  pose proof (dispatch_accepted _ _ _ Hcur Hacc) as Hd.
  simplify_eq/=. eexists _, _. split; [exact Hd|]. simpl.
  pose proof (fresh_store w) as Hfresh.
  assert (Hkeep : ∀ j, j ≤ k →
    (take (k + 1) (history (state w)) ++ [Entry (fresh (dom (store w)))]) !! j
    = history (state w) !! j).
  { intros j Hj. rewrite lookup_app_l by (rewrite length_take; lia).
    apply lookup_take_lt. lia. }
  split_and!; try done.
  - rewrite length_app, length_take. simpl. lia.
  - intros j Hj. apply boardAt_preserved; simpl; [done| |by apply Hkeep].
    apply insert_subseteq, Hfresh.
  - intros He. destruct (inv_alloc _ Hinv _ He) as [b Hb]. simpl in Hb. congruence.
  - rewrite lookup_app_r; rewrite length_take; [|lia].
    by replace (k + 1 - (k + 1) `min` length (history (state w))) with 0 by lia.
Qed.

Lemma jump_then_click_truncates_witness :
  reachable (after [Click 0; Click 1; Click 2]) ∧
  length (history (state (after [Click 0; Click 1; Click 2]))) = 4 ∧
  ∃ w2 e,
    dispatch (Click 4) (after [Click 0; Click 1; Click 2; Jump 1]) = Some w2 ∧
    length (history (state w2)) = 1 + 2 ∧
    history (state w2) =
      take (1 + 1) (history (state (after [Click 0; Click 1; Click 2]))) ++ [e] ∧
    (∀ j, j ≤ 1 → history (state w2) !! j =
                  history (state (after [Click 0; Click 1; Click 2])) !! j) ∧
    (∀ j, j ≤ 1 → boardAt w2 j = boardAt (after [Click 0; Click 1; Click 2]) j) ∧
    (e ∉ history (state (after [Click 0; Click 1; Click 2]))) ∧
    stepNumber (state w2) = 1 + 1 ∧
    history (state w2) !! stepNumber (state w2) = Some e.
Proof.
  assert (H1 : reachable (after [Click 0; Click 1; Click 2])).
  { apply (run_reachable [Click 0; Click 1; Click 2] initial); [constructor|].
    by vm_compute. }
  assert (H2 : 1 < length (history (state (after [Click 0; Click 1; Click 2]))) - 1)
    by (vm_compute; lia).
  assert (H3 : dispatch (Jump 1) (after [Click 0; Click 1; Click 2])
               = Some (after [Click 0; Click 1; Click 2; Jump 1]))
    by (by vm_compute).
  assert (H4 : accepted 4 (after [Click 0; Click 1; Click 2; Jump 1]))
    by (apply (bool_decide_unpack _); by vm_compute).
  exact (conj H1 (conj eq_refl (jump_then_click_truncates _ 1 4 _ H1 H2 H3 H4))).
Defined.

(** C6: in every world reachable from the new game by clicks and offered
    jumps, [xIsNext] is true exactly when [stepNumber] is even. *)
Theorem xIsNext_iff_even w :
  reachable w → xIsNext (state w) = true ↔ Nat.Even (stepNumber (state w)).
Proof.
  intros Hinv%reachable_inv. rewrite (inv_parity _ Hinv). apply Nat.even_spec.
Qed.

Lemma xIsNext_iff_even_witness :
  reachable (after [Click 0; Click 4; Click 8; Jump 1]) ∧
  stepNumber (state (after [Click 0; Click 4; Click 8; Jump 1])) = 1 ∧
  (xIsNext (state (after [Click 0; Click 4; Click 8; Jump 1])) = true
   ↔ Nat.Even (stepNumber (state (after [Click 0; Click 4; Click 8; Jump 1])))).
Proof.
  assert (H1 : reachable (after [Click 0; Click 4; Click 8; Jump 1])).
  { apply (run_reachable [Click 0; Click 4; Click 8; Jump 1] initial);
      [constructor|]. by vm_compute. }
  exact (conj H1 (conj eq_refl (xIsNext_iff_even _ H1))).
Defined.

(** C7: an accepted click in a reachable world appends an entry whose array is
    newly allocated; it reads like the board shown before the click except at
    square [i], which holds X when the step pointer was even and O when it was
    odd; the arrays of all stored entries keep their contents. *)
Theorem handleClick_appends_clone w i :
  reachable w → accepted i w →
  ∃ board w' e board',
    currentBoard w = Some board ∧
    dispatch (Click i) w = Some w' ∧
    history (state w') =
      take (stepNumber (state w) + 1) (history (state w)) ++ [e] ∧
    store w !! squares e = None ∧
    (∀ e', e' ∈ history (state w) → squares e' ≠ squares e) ∧
    store w' !! squares e = Some board' ∧
    js_get board' i = Some (if Nat.even (stepNumber (state w)) then X else O) ∧
    (∀ j, j ≠ i → js_get board' j = js_get board j) ∧
    (i < length board →
     board' = <[i := Some (if Nat.even (stepNumber (state w)) then X else O)]> board) ∧
    (∀ e', e' ∈ history (state w) →
           store w' !! squares e' = store w !! squares e') ∧
    store w ⊆ store w'.
Proof.
  intros Hinv%reachable_inv Hacc.
  destruct (game_inv_currentBoard _ Hinv) as [board Hcur].
  pose proof (dispatch_accepted _ _ _ Hcur Hacc) as Hd. simpl in Hd.
  pose proof (fresh_store w) as Hfresh.
  rewrite (inv_parity _ Hinv) in Hd.
  eexists board, _, (Entry (fresh (dom (store w)))),
    (js_set board i (Some (if Nat.even (stepNumber (state w)) then X else O))).
  split; [done|]. split; [exact Hd|]. simpl.
  assert (Hold : ∀ e', e' ∈ history (state w) →
                       squares e' ≠ fresh (dom (store w))).
  { intros e' He' Heq. destruct (inv_alloc _ Hinv _ He') as [b Hb]. congruence. }
  split_and!; try done.
  - apply lookup_insert_eq.
  - apply js_get_set_eq.
  - intros j Hj. by apply js_get_set_ne.
  - apply js_set_in_range.
  - intros e' He'. apply lookup_insert_ne. by intros Heq; eapply Hold.
  - by apply insert_subseteq.
Qed.

Lemma handleClick_appends_clone_witness :
  reachable (after [Click 0]) ∧ accepted 4 (after [Click 0]) ∧
  ∃ board w' e board',
    currentBoard (after [Click 0]) = Some board ∧
    dispatch (Click 4) (after [Click 0]) = Some w' ∧
    history (state w') =
      take (stepNumber (state (after [Click 0])) + 1)
           (history (state (after [Click 0]))) ++ [e] ∧
    store (after [Click 0]) !! squares e = None ∧
    (∀ e', e' ∈ history (state (after [Click 0])) → squares e' ≠ squares e) ∧
    store w' !! squares e = Some board' ∧
    js_get board' 4 =
      Some (if Nat.even (stepNumber (state (after [Click 0]))) then X else O) ∧
    (∀ j, j ≠ 4 → js_get board' j = js_get board j) ∧
    (4 < length board →
     board' = <[4 := Some (if Nat.even (stepNumber (state (after [Click 0])))
                           then X else O)]> board) ∧
    (∀ e', e' ∈ history (state (after [Click 0])) →
           store w' !! squares e' = store (after [Click 0]) !! squares e') ∧
    store (after [Click 0]) ⊆ store w'.
Proof.
  assert (H1 : reachable (after [Click 0])).
  { apply (run_reachable [Click 0] initial); [constructor|]. by vm_compute. }
  assert (H2 : accepted 4 (after [Click 0]))
    by (apply (bool_decide_unpack _); by vm_compute).
  exact (conj H1 (conj H2 (handleClick_appends_clone _ 4 H1 H2))).
Defined.

(** C8: a jump to an existing step [k] sets [stepNumber] to [k] and [xIsNext]
    to true for even [k] and false for odd [k]; [history] and every stored
    board stay as they are. *)
Theorem jumpTo_moves_pointer_only w k :
  k < length (history (state w)) →
  ∃ w',
    dispatch (Jump k) w = Some w' ∧
    stepNumber (state w') = k ∧
    (Nat.Even k → xIsNext (state w') = true) ∧
    (Nat.Odd k → xIsNext (state w') = false) ∧
    history (state w') = history (state w) ∧
    store w' = store w ∧
    ∀ j, boardAt w' j = boardAt w j.
Proof.
  intros _.
  exists {| store := store w;
            state := {| history := history (state w); stepNumber := k;
                        xIsNext := Nat.even k |} |}.
  split.
  { cbv [dispatch jumpTo commit setState set_history set_stepNumber
           set_xIsNext from_option id].
    by rewrite mod2_even. }
  cbn [state store history stepNumber xIsNext].
  split_and!; try done.
  - apply Nat.even_spec.
  - intros Hodd%Nat.odd_spec. by rewrite <- Nat.negb_odd, Hodd.
Qed.

Lemma jumpTo_moves_pointer_only_witness :
  1 < length (history (state (after [Click 0; Click 4; Click 8]))) ∧
  ∃ w',
    dispatch (Jump 1) (after [Click 0; Click 4; Click 8]) = Some w' ∧
    stepNumber (state w') = 1 ∧
    (Nat.Even 1 → xIsNext (state w') = true) ∧
    (Nat.Odd 1 → xIsNext (state w') = false) ∧
    history (state w') = history (state (after [Click 0; Click 4; Click 8])) ∧
    store w' = store (after [Click 0; Click 4; Click 8]) ∧
    ∀ j, boardAt w' j = boardAt (after [Click 0; Click 4; Click 8]) j.
Proof.
  assert (H1 : 1 < length (history (state (after [Click 0; Click 4; Click 8]))))
    by (vm_compute; lia).
  exact (conj H1 (jumpTo_moves_pointer_only _ 1 H1)).
Defined.

(** Against C9 as it is worded: the first label of a new game is not the
    specification's text. *)
Lemma moves_label_not_spec_text :
  desc <$> moves (state initial) !! 0 ≠ Some (spec_label 0).
Proof. by vm_compute. Qed.

(** C9, amended: the move list has one item per history entry, in order; the
    item at index 0 is labelled "Go to game start", the item at an index
    [i > 0] is labelled "Go to move # " followed by [i] in decimal, and the
    item at index [i] is bound to [jumpTo i]. *)
Theorem moves_labels st i :
  i < length (history st) →
  length (moves st) = length (history st) ∧
  ∃ item,
    moves st !! i = Some item ∧
    key item = i ∧
    desc item = (if decide (i = 0) then "Go to game start"
                 else "Go to move # " +:+ pretty i)%string ∧
    onClick item = jumpTo i ∧
    ∀ w, commit w (onClick item w) = dispatch (Jump i) w.
Proof.
  intros Hi. unfold moves. split; [apply length_imap|].
  destruct (lookup_lt_is_Some_2 _ _ Hi) as [e He].
  eexists. rewrite list_lookup_imap, He. simpl.
  split_and!; try done. by destruct i.
Qed.

Lemma moves_labels_witness :
  2 < length (history (state (after [Click 0; Click 4]))) ∧
  length (moves (state (after [Click 0; Click 4]))) = 3 ∧
  (desc <$> moves (state (after [Click 0; Click 4])) !! 2)
    = Some "Go to move # 2"%string ∧
  ∃ item,
    moves (state (after [Click 0; Click 4])) !! 2 = Some item ∧
    key item = 2 ∧
    desc item = (if decide (2 = 0) then "Go to game start"
                 else "Go to move # " +:+ pretty 2)%string ∧
    onClick item = jumpTo 2 ∧
    ∀ w, commit w (onClick item w) = dispatch (Jump 2) w.
Proof.
  assert (H1 : 2 < length (history (state (after [Click 0; Click 4]))))
    by (vm_compute; lia).
  exact (conj H1 (conj eq_refl (conj eq_refl
           (proj2 (moves_labels (state (after [Click 0; Click 4])) 2 H1))))).
Defined.

(** C10: [handleClick] tests only the board at the step pointer.  In a
    reachable world whose shown board has no winner, a click on an empty
    square is accepted: the history is cut after the step pointer, one entry
    is appended and the pointer moves to it, whatever the later entries hold.
    So from any reachable world, a won one included, a jump to a step whose
    board has no winner makes clicks on its empty squares accepted again. *)
Theorem winner_check_reads_shown_board w i :
  reachable w →
  (∀ board,
     currentBoard w = Some board →
     calculateWinner board = None → js_get board i = None →
     accepted i w ∧
     ∃ w' e,
       dispatch (Click i) w = Some w' ∧
       history (state w') =
         take (stepNumber (state w) + 1) (history (state w)) ++ [e] ∧
       stepNumber (state w') = stepNumber (state w) + 1) ∧
  (∀ k board,
     k < length (history (state w)) → boardAt w k = Some board →
     calculateWinner board = None → js_get board i = None →
     ∃ w1 w2 e,
       dispatch (Jump k) w = Some w1 ∧
       reachable w1 ∧ accepted i w1 ∧
       dispatch (Click i) w1 = Some w2 ∧
       history (state w2) = take (k + 1) (history (state w)) ++ [e] ∧
       stepNumber (state w2) = k + 1).
Proof.
  assert (Hshown : ∀ w0 board,
    currentBoard w0 = Some board →
    calculateWinner board = None → js_get board i = None →
    accepted i w0 ∧
    ∃ w' e,
      dispatch (Click i) w0 = Some w' ∧
      history (state w') =
        take (stepNumber (state w0) + 1) (history (state w0)) ++ [e] ∧
      stepNumber (state w') = stepNumber (state w0) + 1).
  { intros w0 board Hcur Hwin Hempty.
    assert (Hacc : accepted i w0) by by apply (accepted_iff _ _ _ Hcur).
    split; [done|]. eexists _, _.
    split; [by apply (dispatch_accepted _ _ _ Hcur)|]. done. }
  intros Hreach. split; [apply Hshown|].
  intros k board Hk Hboard Hwin Hempty.
  destruct (jumpTo_frame w k) as (w1 & Hjump & Hstep & Hhist & Hstore).
  assert (Hreach1 : reachable w1).
  { exact (reachable_step w (Jump k) w1 Hreach Hk Hjump). }
  assert (Hcur : currentBoard w1 = Some board).
  { unfold currentBoard. rewrite Hstep, Hhist, Hstore. exact Hboard. }
  destruct (Hshown w1 board Hcur Hwin Hempty) as (Hacc & w2 & e & Hd & Hh & Hs).
  exists w1, w2, e. rewrite Hstep, Hhist in *. done.
Qed.

Lemma winner_check_reads_shown_board_witness :
  reachable won_game ∧
  (calculateWinner <$> currentBoard won_game) = Some (Some X) ∧
  ¬ accepted 8 won_game ∧
  (calculateWinner <$> boardAt won_game_at_2 5) = Some (Some X) ∧
  (accepted 8 won_game_at_2 ∧
   ∃ w' e,
     dispatch (Click 8) won_game_at_2 = Some w' ∧
     history (state w') =
       take (stepNumber (state won_game_at_2) + 1)
            (history (state won_game_at_2)) ++ [e] ∧
     stepNumber (state w') = stepNumber (state won_game_at_2) + 1) ∧
  ∃ w1 w2 e,
    dispatch (Jump 2) won_game = Some w1 ∧
    reachable w1 ∧ accepted 8 w1 ∧
    dispatch (Click 8) w1 = Some w2 ∧
    history (state w2) = take (2 + 1) (history (state won_game)) ++ [e] ∧
    stepNumber (state w2) = 2 + 1.
Proof.
  assert (H1 : reachable won_game).
  { apply (run_reachable [Click 0; Click 1; Click 3; Click 4; Click 6] initial);
      [constructor|]. by vm_compute. }
  assert (H1' : reachable won_game_at_2).
  { apply (run_reachable [Jump 2] won_game); [exact H1|]. by vm_compute. }
  assert (H2 : 2 < length (history (state won_game))) by (vm_compute; lia).
  assert (H3 : boardAt won_game 2 =
               Some (<[1 := Some O]> (<[0 := Some X]> (replicate 9 None))))
    by (by vm_compute).
  assert (H3' : currentBoard won_game_at_2 =
                Some (<[1 := Some O]> (<[0 := Some X]> (replicate 9 None))))
    by (by vm_compute).
  assert (H4 : calculateWinner
                 (<[1 := Some O]> (<[0 := Some X]> (replicate 9 None))) = None)
    by reflexivity.
  assert (H5 : js_get (<[1 := Some O]> (<[0 := Some X]> (replicate 9 None))) 8
               = None)
    by reflexivity.
  assert (H6 : ¬ accepted 8 won_game)
    by (apply (bool_decide_unpack _); by vm_compute).
  refine (conj H1 (conj _ (conj H6 (conj _ (conj _ _))))).
  - by vm_compute.
  - by vm_compute.
  - exact (proj1 (winner_check_reads_shown_board won_game_at_2 8 H1')
             _ H3' H4 H5).
  - exact (proj2 (winner_check_reads_shown_board won_game 8 H1)
             2 _ H2 H3 H4 H5).
Defined.

(** ** Further properties of the win calculator *)

Section counting.
Implicit Types (squares : list cell) (m : mark).

Lemma count_mark_app m squares squares' :
  count_mark m (squares ++ squares')
  = count_mark m squares + count_mark m squares'.
Proof. unfold count_mark. by rewrite filter_app, length_app. Qed.

Lemma count_mark_cons m v squares :
  count_mark m (v :: squares)
  = (if decide (v = Some m) then 1 else 0) + count_mark m squares.
Proof. unfold count_mark. rewrite filter_cons. by case_decide. Qed.

Lemma count_mark_replicate_None m n : count_mark m (replicate n None) = 0.
Proof.
  induction n as [|n IH]; [done|]. simpl. rewrite count_mark_cons, IH.
  by rewrite decide_False.
Qed.

(** Splitting the count at a square. *)
Lemma count_mark_split m squares i v :
  squares !! i = Some v →
  count_mark m squares
  = count_mark m (take i squares)
    + (if decide (v = Some m) then 1 else 0)
    + count_mark m (drop (S i) squares).
Proof.
  intros Hi. rewrite <- (take_drop_middle _ _ _ Hi) at 1.
  rewrite count_mark_app, count_mark_cons. lia.
Qed.

Lemma count_mark_pos m squares i :
  squares !! i = Some (Some m) → 1 ≤ count_mark m squares.
Proof.
  intros Hi. rewrite (count_mark_split _ _ _ _ Hi), decide_True by done. lia.
Qed.

Lemma count_mark_three m squares a b c :
  a < b → b < c →
  squares !! a = Some (Some m) → squares !! b = Some (Some m) →
  squares !! c = Some (Some m) → 3 ≤ count_mark m squares.
Proof.
  intros Hab Hbc Ha Hb Hc.
  rewrite (count_mark_split _ _ _ _ Hb), decide_True by done.
  assert (1 ≤ count_mark m (take b squares)).
  { apply (count_mark_pos _ _ a). by rewrite lookup_take_lt. }
  assert (1 ≤ count_mark m (drop (S b) squares)).
  { apply (count_mark_pos _ _ (c - S b)). rewrite lookup_drop.
    by replace (S b + (c - S b)) with c by lia. }
  lia.
Qed.

(** The two counts never exceed the number of squares. *)
Lemma count_mark_both squares :
  count_mark X squares + count_mark O squares ≤ length squares.
Proof.
  induction squares as [|v squares IH]; [done|].
  rewrite !count_mark_cons. simpl.
  destruct v as [[]|]; repeat case_decide; simplify_eq; lia.
Qed.

(** A board whose squares are all counted is full. *)
Lemma count_mark_full squares :
  count_mark X squares + count_mark O squares = length squares → full squares.
Proof.
  unfold full. induction squares as [|v squares IH]; [constructor|].
  rewrite !count_mark_cons. simpl. pose proof (count_mark_both squares).
  destruct v as [[]|]; repeat case_decide; simplify_eq; intros Hc;
    try (constructor; [done|apply IH; lia]); lia.
Qed.

(** Writing a mark into an empty square adds one to its count. *)
Lemma count_mark_js_set m m' squares i :
  js_get squares i = None →
  count_mark m (js_set squares i (Some m'))
  = count_mark m squares + (if decide (m' = m) then 1 else 0).
Proof.
  intros Hempty. unfold js_set. case_decide as Hi.
  - destruct (lookup_lt_is_Some_2 _ _ Hi) as [v Hv].
    assert (v = None) as ->.
    { unfold js_get in Hempty. by rewrite Hv in Hempty. }
    rewrite (count_mark_split m _ _ _ Hv), insert_take_drop by done.
    rewrite count_mark_app, count_mark_cons.
    repeat case_decide; simplify_eq; lia.
  - rewrite !count_mark_app, count_mark_replicate_None, count_mark_cons.
    repeat case_decide; simplify_eq; unfold count_mark; simpl; lia.
Qed.
End counting.

Section winner.
Implicit Types (squares : list cell) (l : nat * nat * nat) (m : mark).

Lemma calculateWinner_from_Some squares ls m :
  calculateWinner_from squares ls = Some m →
  ∃ l, l ∈ ls ∧ line_match squares l m.
Proof.
  intros Hwin.
  destruct (first_match squares ls)
    as [Hopen|(pre & l0 & post & m0 & -> & Hpre & Hl0)].
  { by rewrite calculateWinner_from_open in Hwin. }
  rewrite (calculateWinner_from_first _ _ _ _ _ Hpre Hl0) in Hwin.
  simplify_eq. exists l0. split; [|done].
  rewrite elem_of_app, elem_of_cons. auto.
Qed.

Lemma lines_increasing : Forall (λ l, l.1.1 < l.1.2 ∧ l.1.2 < l.2) lines.
Proof. repeat constructor. Qed.

Lemma lines_below_9 : Forall (λ l, l.1.1 < 9 ∧ l.1.2 < 9 ∧ l.2 < 9) lines.
Proof. repeat constructor. Qed.

Lemma js_get_swap_marks squares i :
  js_get (swap_marks squares) i = other <$> js_get squares i.
Proof.
  unfold js_get, swap_marks. rewrite list_lookup_fmap.
  by destruct (squares !! i).
Qed.

Lemma other_involutive m : other (other m) = m.
Proof. by destruct m. Qed.

Lemma strict_eq_swap (v v' : cell) :
  strict_eq (other <$> v) (other <$> v') = strict_eq v v'.
Proof. by destruct v as [[]|], v' as [[]|]. Qed.

Lemma truthy_swap (v : cell) : truthy (other <$> v) = truthy v.
Proof. by destruct v. Qed.
End winner.

(** X1: a mark returned by [calculateWinner] fills one of the eight lines,
    for an array of any length. *)
Theorem calculateWinner_sound (squares : list cell) m :
  calculateWinner squares = Some m →
  ∃ l, l ∈ lines ∧ line_match squares l m.
Proof. apply calculateWinner_from_Some. Qed.

Lemma calculateWinner_sound_witness :
  calculateWinner board_middle_column = Some O ∧
  ∃ l, l ∈ lines ∧ line_match board_middle_column l O.
Proof.
  assert (H1 : calculateWinner board_middle_column = Some O) by reflexivity.
  exact (conj H1 (calculateWinner_sound board_middle_column O H1)).
Defined.

(** X2: [calculateWinner] returns [null] exactly when none of the eight lines
    holds three equal marks. *)
Theorem calculateWinner_None_iff (squares : list cell) :
  calculateWinner squares = None ↔ Forall (line_open squares) lines.
Proof.
  split; [|apply calculateWinner_from_open].
  intros Hnone.
  destruct (first_match squares lines)
    as [Hopen|(pre & l0 & post & m0 & Hlines & Hpre & Hl0)]; [done|].
  unfold calculateWinner in Hnone.
  by rewrite Hlines, (calculateWinner_from_first _ _ _ _ _ Hpre Hl0) in Hnone.
Qed.

(** X3: exchanging X and O on the board exchanges them in the result. *)
Theorem calculateWinner_swap_marks (squares : list cell) :
  calculateWinner (swap_marks squares) = other <$> calculateWinner squares.
Proof.
  unfold calculateWinner. induction lines as [|[[a b] c] ls IH]; [done|].
  simpl. rewrite !js_get_swap_marks, !strict_eq_swap, truthy_swap, IH.
  by destruct (_ && _ && _).
Qed.

(** X4: only the squares 0 to 8 count: two arrays that read alike there have
    the same winner. *)
Theorem calculateWinner_first_nine (squares squares' : list cell) :
  (∀ i, i < 9 → js_get squares i = js_get squares' i) →
  calculateWinner squares = calculateWinner squares'.
Proof.
  intros Hsame. unfold calculateWinner.
  pose proof lines_below_9 as Hlines.
  induction Hlines as [|[[a b] c] ls (Ha & Hb & Hc) _ IH]; [done|].
  simpl in *. by rewrite !(Hsame a), !(Hsame b), !(Hsame c), IH.
Qed.

Lemma calculateWinner_first_nine_witness :
  calculateWinner (board_middle_column ++ [Some X; Some X; Some X])
  = calculateWinner board_middle_column.
Proof.
  apply calculateWinner_first_nine. intros i Hi.
  do 9 (destruct i as [|i]; [reflexivity|]). lia.
Defined.

(** X5: a winner has at least three marks on the board. *)
Theorem calculateWinner_three_marks (squares : list cell) m :
  calculateWinner squares = Some m → 3 ≤ count_mark m squares.
Proof.
  intros (l & Hl & Ha & Hb & Hc)%calculateWinner_from_Some.
  pose proof lines_increasing as Hinc. rewrite Forall_forall in Hinc.
  destruct (Hinc l Hl) as [Hab Hbc].
  exact (count_mark_three m squares _ _ _ Hab Hbc Ha Hb Hc).
Qed.

Lemma calculateWinner_three_marks_witness :
  calculateWinner board_two_rows = Some X ∧ 3 ≤ count_mark X board_two_rows.
Proof.
  assert (H1 : calculateWinner board_two_rows = Some X) by reflexivity.
  exact (conj H1 (calculateWinner_three_marks board_two_rows X H1)).
Defined.

(** ** The history as a record of the game *)

Section history.
Implicit Types (w : world) (i j k : nat) (board b : list cell) (m : mark).

Lemma calculateWinner_None_open (squares : list cell) :
  calculateWinner squares = None → Forall (line_open squares) lines.
Proof.
  intros Hnone.
  destruct (first_match squares lines)
    as [Hopen|(pre & l0 & post & m0 & Hlines & Hpre & Hl0)]; [done|].
  unfold calculateWinner in Hnone.
  by rewrite Hlines, (calculateWinner_from_first _ _ _ _ _ Hpre Hl0) in Hnone.
Qed.

Lemma boardAt_lt w k b :
  boardAt w k = Some b → k < length (history (state w)).
Proof.
  unfold boardAt. destruct (history (state w) !! k) eqn:He; [|done].
  intros _. by eapply lookup_lt_Some.
Qed.

Lemma game_inv_boardAt w k :
  game_inv w → k < length (history (state w)) → is_Some (boardAt w k).
Proof.
  intros [_ Halloc _] Hk. unfold boardAt.
  destruct (lookup_lt_is_Some_2 _ _ Hk) as [e He]. rewrite He. simpl.
  apply Halloc. by eapply list_elem_of_lookup_2.
Qed.

(** The world after an accepted click, board by board. *)
Lemma click_accepted_world w i board w' :
  game_inv w → currentBoard w = Some board → accepted i w →
  dispatch (Click i) w = Some w' →
  history (state w') =
    take (stepNumber (state w) + 1) (history (state w))
      ++ [Entry (fresh (dom (store w)))] ∧
  length (history (state w')) = stepNumber (state w) + 2 ∧
  stepNumber (state w') = stepNumber (state w) + 1 ∧
  xIsNext (state w') = negb (xIsNext (state w)) ∧
  (∀ k, k ≤ stepNumber (state w) → boardAt w' k = boardAt w k) ∧
  boardAt w' (stepNumber (state w) + 1) =
    Some (js_set board i (Some (mover (stepNumber (state w))))).
Proof.
  intros Hinv Hcur Hacc Hd.
  rewrite (dispatch_accepted _ _ _ Hcur Hacc) in Hd. simplify_eq.
  pose proof (inv_step _ Hinv) as Hstep.
  pose proof (fresh_store w) as Hfresh.
  assert (Hlen : length (take (stepNumber (state w) + 1) (history (state w)))
                 = stepNumber (state w) + 1)
    by (rewrite length_take; lia).
  cbn [state store history stepNumber xIsNext]. split_and!; try done.
  - rewrite length_app, Hlen. simpl. lia.
  - intros k Hk. apply boardAt_preserved; [done|..]; simpl.
    + by apply insert_subseteq.
    + rewrite lookup_app_l by lia. apply lookup_take_lt. lia.
  - unfold boardAt. cbn [state store history].
    rewrite lookup_app_r by lia. rewrite Hlen, Nat.sub_diag. simpl.
    rewrite lookup_insert_eq. unfold mover. by rewrite (inv_parity _ Hinv).
Qed.

(** The world after an ignored click. *)
Lemma click_rejected_world w i w' :
  game_inv w → ¬ accepted i w → dispatch (Click i) w = Some w' →
  state w' = state w ∧ ∀ k, boardAt w' k = boardAt w k.
Proof.
  intros Hinv Hrej Hd. destruct (game_inv_currentBoard _ Hinv) as [b Hcur].
  simpl in Hd. rewrite (handleClick_rejected _ _ _ Hcur Hrej) in Hd.
  simplify_eq/=. split; [done|]. intros k.
  apply boardAt_preserved; [done| |done]. apply store_alloc_subseteq.
Qed.

Lemma jump_world w k w' :
  dispatch (Jump k) w = Some w' →
  history (state w') = history (state w) ∧ store w' = store w ∧
  stepNumber (state w') = k ∧ ∀ j, boardAt w' j = boardAt w j.
Proof. intros Hd. by simplify_eq/=. Qed.

Lemma boardAt_initial : boardAt initial 0 = Some (replicate 9 None).
Proof. unfold boardAt. simpl. by rewrite lookup_singleton_eq. Qed.

(** The first board is empty and each later board comes from the one before
    it by a legal move. *)
Lemma reachable_history_legal w :
  reachable w →
  boardAt w 0 = Some (replicate 9 None) ∧
  ∀ k, k + 1 < length (history (state w)) →
       ∃ b b', boardAt w k = Some b ∧ boardAt w (k + 1) = Some b' ∧
               legal_move k b b'.
Proof.
  induction 1 as [|w [i|j] w' Hreach [IH0 IH] Hoff Hd].
  - split; [apply boardAt_initial|]. simpl. lia.
  - apply reachable_inv in Hreach as Hinv.
    pose proof (inv_step _ Hinv) as Hstep.
    destruct (decide (accepted i w)) as [Hacc|Hrej].
    + destruct (game_inv_currentBoard _ Hinv) as [board Hcur].
      destruct (click_accepted_world _ _ _ _ Hinv Hcur Hacc Hd)
        as (_ & Hlen & _ & _ & Hold & Hnew).
      split; [rewrite Hold by lia; done|].
      intros k Hk. rewrite Hlen in Hk.
      destruct (decide (k = stepNumber (state w))) as [->|Hne].
      * exists board, (js_set board i (Some (mover (stepNumber (state w))))).
        rewrite Hold by lia. split_and!; [done..|].
        destruct (proj1 (accepted_iff _ _ _ Hcur) Hacc) as [Hwin Hempty].
        by exists i.
      * rewrite !Hold by lia. apply IH. lia.
    + destruct (click_rejected_world _ _ _ Hinv Hrej Hd) as [Hst Hb].
      rewrite Hst. split; [by rewrite Hb|].
      intros k Hk. rewrite !Hb. by apply IH.
  - destruct (jump_world _ _ _ Hd) as (Hh & _ & _ & Hb).
    rewrite Hh. split; [by rewrite Hb|].
    intros k Hk. rewrite !Hb. by apply IH.
Qed.

(** Marks on the board at step [k]: X and O together have [k], and X has one
    more than O exactly when [k] is odd. *)
Lemma reachable_counts w k b :
  reachable w → boardAt w k = Some b →
  count_mark X b + count_mark O b = k ∧
  count_mark X b = count_mark O b + (if Nat.even k then 0 else 1).
Proof.
  intros Hreach. destruct (reachable_history_legal _ Hreach) as [H0 Hchain].
  revert b. induction k as [|k IH]; intros b Hb.
  - rewrite H0 in Hb. by simplify_eq.
  - apply boardAt_lt in Hb as Hlt.
    destruct (Hchain k) as (b0 & b' & Hb0 & Hb' & i & _ & Hempty & ->); [lia|].
    replace (S k) with (k + 1) in Hb by lia. rewrite Hb' in Hb. simplify_eq.
    destruct (IH _ Hb0) as [Hsum Hdiff].
    rewrite !(count_mark_js_set _ _ _ _ Hempty).
    replace (S k) with (k + 1) by lia. rewrite even_succ_negb.
    unfold mover. destruct (Nat.even k); simpl; repeat case_decide;
      simplify_eq; lia.
Qed.
End history.

Section history_facts.
Implicit Types (w : world) (i j k : nat) (board b : list cell) (m : mark).

Lemma winner_has_three (squares : list cell) m :
  calculateWinner squares = Some m → 3 ≤ count_mark m squares.
Proof.
  intros (l & Hl & Ha & Hb & Hc)%calculateWinner_from_Some.
  pose proof lines_increasing as Hinc. rewrite Forall_forall in Hinc.
  destruct (Hinc l Hl) as [Hab Hbc].
  exact (count_mark_three m squares _ _ _ Hab Hbc Ha Hb Hc).
Qed.

Lemma reachable_marks_kept w j k b b' i m :
  reachable w → j ≤ k →
  boardAt w j = Some b → boardAt w k = Some b' →
  js_get b i = Some m → js_get b' i = Some m.
Proof.
  intros Hreach Hjk Hb. destruct (reachable_history_legal _ Hreach) as [_ Hchain].
  revert b'. induction Hjk as [|k Hjk IH]; intros b' Hb' Hm.
  - by simplify_eq.
  - apply boardAt_lt in Hb' as Hlt.
    destruct (Hchain k) as (b0 & b1 & Hb0 & Hb1 & i0 & _ & Hempty & ->); [lia|].
    replace (S k) with (k + 1) in Hb' by lia. rewrite Hb1 in Hb'. simplify_eq.
    specialize (IH _ Hb0 Hm).
    rewrite js_get_set_ne; [done|]. intros ->. congruence.
Qed.

(** A line of [m] on a board that has just received the other mark was there
    before. *)
Lemma line_match_before (b : list cell) i m m' l :
  m ≠ m' → line_match (js_set b i (Some m')) l m → line_match b l m.
Proof.
  intros Hne (Ha & Hb & Hc). unfold line_match.
  rewrite <- !js_get_Some in *.
  assert (Hread : ∀ a, js_get (js_set b i (Some m')) a = Some m →
                       js_get b a = Some m).
  { intros a Hget. destruct (decide (a = i)) as [->|Hai].
    - rewrite js_get_set_eq in Hget. congruence.
    - by rewrite js_get_set_ne in Hget. }
  auto.
Qed.

Lemma reachable_winner_mover w k b m :
  reachable w → boardAt w k = Some b → calculateWinner b = Some m →
  ∃ k', k = k' + 1 ∧ m = mover k'.
Proof.
  intros Hreach Hb Hwin.
  destruct (reachable_history_legal _ Hreach) as [H0 Hchain].
  destruct k as [|k]; [rewrite H0 in Hb; by simplify_eq|].
  exists k. split; [lia|]. apply boardAt_lt in Hb as Hlt.
  destruct (Hchain k) as (b0 & b1 & Hb0 & Hb1 & i & Hnone & Hempty & ->); [lia|].
  replace (S k) with (k + 1) in Hb by lia. rewrite Hb1 in Hb. simplify_eq.
  destruct (decide (m = mover k)) as [|Hne]; [done|].
  apply calculateWinner_from_Some in Hwin as (l & Hl & Hmatch).
  apply line_match_before in Hmatch; [|done].
  apply calculateWinner_None_open in Hnone. rewrite Forall_forall in Hnone.
  by destruct (Hnone l Hl m).
Qed.

Lemma reachable_NoDup w :
  reachable w → NoDup (squares <$> history (state w)).
Proof.
  induction 1 as [|w [i|j] w' Hreach IH Hoff Hd].
  - simpl. apply NoDup_singleton.
  - apply reachable_inv in Hreach as Hinv.
    destruct (decide (accepted i w)) as [Hacc|Hrej].
    + destruct (game_inv_currentBoard _ Hinv) as [board Hcur].
      destruct (click_accepted_world _ _ _ _ Hinv Hcur Hacc Hd) as (-> & _).
      rewrite fmap_app, fmap_take. simpl. apply NoDup_app. split_and!.
      * eapply sublist_NoDup; [exact IH|apply sublist_take].
      * intros l Hl%subseteq_take ->%list_elem_of_singleton.
        apply list_elem_of_fmap in Hl as (e & He & Hin).
        destruct (inv_alloc _ Hinv _ Hin) as [b Hb].
        pose proof (fresh_store w). congruence.
      * apply NoDup_singleton.
    + destruct (click_rejected_world _ _ _ Hinv Hrej Hd) as [-> _]. done.
  - destruct (jump_world _ _ _ Hd) as (-> & _). done.
Qed.
End history_facts.

(** X6: in every reachable world, the new game included, the first history
    entry is the board of nine empty squares; and every entry but the last
    has no winner and is followed by a board that reads the same except in
    one square, empty before, which holds X after an even step and O after an
    odd one. *)
Theorem history_records_moves w :
  reachable w →
  boardAt w 0 = Some (replicate 9 None) ∧
  ∀ k, k + 1 < length (history (state w)) →
    ∃ b b' i,
      boardAt w k = Some b ∧ boardAt w (k + 1) = Some b' ∧
      calculateWinner b = None ∧ js_get b i = None ∧
      js_get b' i = Some (if Nat.even k then X else O) ∧
      ∀ j, j ≠ i → js_get b' j = js_get b j.
Proof.
  intros Hreach. destruct (reachable_history_legal _ Hreach) as [H0 Hchain].
  split; [done|]. intros k Hk.
  destruct (Hchain k Hk) as (b & b' & Hb & Hb' & i & Hnone & Hempty & ->).
  exists b, (js_set b i (Some (mover k))), i. split_and!; try done.
  - apply js_get_set_eq.
  - intros j Hj. by apply js_get_set_ne.
Qed.

Lemma history_records_moves_witness :
  reachable initial ∧ length (history (state initial)) = 1 ∧
  boardAt initial 0 = Some (replicate 9 None) ∧
  reachable won_game ∧ 4 + 1 < length (history (state won_game)) ∧
  boardAt won_game 0 = Some (replicate 9 None) ∧
  ∃ b b' i,
    boardAt won_game 4 = Some b ∧ boardAt won_game (4 + 1) = Some b' ∧
    calculateWinner b = None ∧ js_get b i = None ∧
    js_get b' i = Some (if Nat.even 4 then X else O) ∧
    ∀ j, j ≠ i → js_get b' j = js_get b j.
Proof.
  assert (H0 : reachable initial) by constructor.
  assert (H1 : reachable won_game).
  { apply (run_reachable [Click 0; Click 1; Click 3; Click 4; Click 6] initial);
      [constructor|]. by vm_compute. }
  assert (H2 : 4 + 1 < length (history (state won_game))) by (vm_compute; lia).
  exact (conj H0 (conj eq_refl (conj
           (proj1 (history_records_moves initial H0))
           (conj H1 (conj H2 (conj
              (proj1 (history_records_moves won_game H1))
              (proj2 (history_records_moves won_game H1) 4 H2))))))).
Defined.

(** X7: a mark, once on the board of some step, is on the board of every
    later step of the history: no move erases or overwrites a mark. *)
Theorem marks_persist w j k b b' i m :
  reachable w → j ≤ k →
  boardAt w j = Some b → boardAt w k = Some b' →
  js_get b i = Some m → js_get b' i = Some m.
Proof. apply reachable_marks_kept. Qed.

Lemma marks_persist_witness :
  reachable won_game ∧
  boardAt won_game 1 = Some (<[0 := Some X]> (replicate 9 None)) ∧
  js_get (default [] (boardAt won_game 5)) 0 = Some X.
Proof.
  assert (H1 : reachable won_game).
  { apply (run_reachable [Click 0; Click 1; Click 3; Click 4; Click 6] initial);
      [constructor|]. by vm_compute. }
  assert (H2 : 1 ≤ 5) by lia.
  assert (H3 : boardAt won_game 1 = Some (<[0 := Some X]> (replicate 9 None)))
    by (by vm_compute).
  assert (H4 : boardAt won_game 5 = Some (default [] (boardAt won_game 5)))
    by (by vm_compute).
  assert (H5 : js_get (<[0 := Some X]> (replicate 9 None)) 0 = Some X)
    by reflexivity.
  exact (conj H1 (conj H3
           (marks_persist won_game 1 5 _ _ 0 X H1 H2 H3 H4 H5))).
Defined.

(** X8: in a reachable world the board of step [k] holds exactly [k] marks;
    X and O have equally many when [k] is even, and X has one more when [k]
    is odd. *)
Theorem marks_count_steps w k b :
  reachable w → boardAt w k = Some b →
  count_mark X b + count_mark O b = k ∧
  count_mark X b = count_mark O b + (if Nat.even k then 0 else 1).
Proof. apply reachable_counts. Qed.

Lemma marks_count_steps_witness :
  reachable won_game ∧
  count_mark X (default [] (boardAt won_game 5))
    + count_mark O (default [] (boardAt won_game 5)) = 5 ∧
  count_mark X (default [] (boardAt won_game 5))
  = count_mark O (default [] (boardAt won_game 5))
    + (if Nat.even 5 then 0 else 1).
Proof.
  assert (H1 : reachable won_game).
  { apply (run_reachable [Click 0; Click 1; Click 3; Click 4; Click 6] initial);
      [constructor|]. by vm_compute. }
  assert (H2 : boardAt won_game 5 = Some (default [] (boardAt won_game 5)))
    by (by vm_compute).
  exact (conj H1 (marks_count_steps won_game 5 _ H1 H2)).
Defined.

(** X9: no board of a reachable world shows a winner before the fifth move;
    X cannot have won before step 5 and O not before step 6. *)
Theorem no_early_winner w k b m :
  reachable w → boardAt w k = Some b → calculateWinner b = Some m →
  match m with X => 5 ≤ k | O => 6 ≤ k end.
Proof.
  intros Hreach Hb Hwin%winner_has_three.
  destruct (reachable_counts _ _ _ Hreach Hb) as [Hsum Hdiff].
  destruct m, (Nat.even k); lia.
Qed.

Lemma no_early_winner_witness :
  reachable won_game ∧
  (calculateWinner <$> boardAt won_game 5) = Some (Some X) ∧ 5 ≤ 5.
Proof.
  assert (H1 : reachable won_game).
  { apply (run_reachable [Click 0; Click 1; Click 3; Click 4; Click 6] initial);
      [constructor|]. by vm_compute. }
  assert (H2 : boardAt won_game 5 = Some (default [] (boardAt won_game 5)))
    by (by vm_compute).
  assert (H3 : calculateWinner (default [] (boardAt won_game 5)) = Some X)
    by (by vm_compute).
  refine (conj H1 (conj _ (no_early_winner won_game 5 _ X H1 H2 H3))).
  by vm_compute.
Defined.

(** X10: in a reachable world the winner shown on the board of step [k] is
    the player who made the last move to it: X when [k] is odd, O when [k] is
    even, and [k] is not 0. *)
Theorem winner_moved_last w k b m :
  reachable w → boardAt w k = Some b → calculateWinner b = Some m →
  0 < k ∧ m = (if Nat.even k then O else X).
Proof.
  intros Hreach Hb Hwin.
  destruct (reachable_winner_mover _ _ _ _ Hreach Hb Hwin) as (k' & -> & ->).
  split; [lia|]. rewrite even_succ_negb. unfold mover. by destruct (Nat.even k').
Qed.

Lemma winner_moved_last_witness :
  reachable won_game ∧
  (calculateWinner <$> boardAt won_game 5) = Some (Some X) ∧
  0 < 5 ∧ X = (if Nat.even 5 then O else X).
Proof.
  assert (H1 : reachable won_game).
  { apply (run_reachable [Click 0; Click 1; Click 3; Click 4; Click 6] initial);
      [constructor|]. by vm_compute. }
  assert (H2 : boardAt won_game 5 = Some (default [] (boardAt won_game 5)))
    by (by vm_compute).
  assert (H3 : calculateWinner (default [] (boardAt won_game 5)) = Some X)
    by (by vm_compute).
  refine (conj H1 (conj _ (winner_moved_last won_game 5 _ X H1 H2 H3))).
  by vm_compute.
Defined.

(** X11: in a reachable world no two history entries share their [squares]
    array, and every entry's array is allocated. *)
Theorem entries_have_own_arrays w :
  reachable w →
  NoDup (squares <$> history (state w)) ∧
  ∀ e, e ∈ history (state w) → is_Some (store w !! squares e).
Proof.
  intros Hreach. split; [by apply reachable_NoDup|].
  apply inv_alloc, reachable_inv, Hreach.
Qed.

Lemma entries_have_own_arrays_witness :
  reachable won_game_at_2 ∧
  NoDup (squares <$> history (state won_game_at_2)) ∧
  ∀ e, e ∈ history (state won_game_at_2) →
       is_Some (store won_game_at_2 !! squares e).
Proof.
  assert (H1 : reachable won_game_at_2).
  { apply (run_reachable
             [Click 0; Click 1; Click 3; Click 4; Click 6; Jump 2] initial);
      [constructor|]. by vm_compute. }
  exact (conj H1 (entries_have_own_arrays won_game_at_2 H1)).
Defined.

(** ** Rendering *)

Section rendering.
Implicit Types (w : world) (v : view) (i j k : nat) (board : list cell).

Lemma render_current w board :
  currentBoard w = Some board →
  render w = Some
    {| status :=
         match calculateWinner board with
         | Some m => "Winner: " +:+ mark_text m
         | None => "Next player: " +:+ (if xIsNext (state w) then "X" else "O")
         end%string;
       game_board := Board_render board handleClick;
       move_list := moves (state w) |}.
Proof.
  unfold currentBoard, render. intros Hcur.
  destruct (history (state w) !! stepNumber (state w)) as [e|]; [|done].
  simpl in *. by rewrite Hcur.
Qed.

Lemma render_Some w v :
  render w = Some v →
  ∃ board, currentBoard w = Some board ∧
           game_board v = Board_render board handleClick ∧
           move_list v = moves (state w).
Proof.
  unfold render, currentBoard. intros Hr.
  destruct (history (state w) !! stepNumber (state w)) as [e|]; [|done].
  simpl in *. destruct (store w !! squares e) as [arr|]; [|done].
  simpl in Hr. simplify_eq. by exists arr.
Qed.

Lemma moves_handlers (st : GameState) :
  onClick <$> moves st = jumpTo <$> seq 0 (length (history st)).
Proof.
  unfold moves. rewrite fmap_imap, <- imap_seq_0. by apply imap_ext.
Qed.

(** The handlers of a rendered view. *)
Lemma render_handlers w v :
  render w = Some v →
  handlers v = (handleClick <$> seq 0 9)
               ++ (jumpTo <$> seq 0 (length (history (state w)))).
Proof.
  intros (board & _ & Hb & Hm)%render_Some. unfold handlers.
  by rewrite Hb, Hm, moves_handlers.
Qed.

Lemma handler_offered w v f :
  render w = Some v →
  f ∈ handlers v ↔ ∃ e, ui_offered w e ∧ f = handler_of e.
Proof.
  intros Hr. rewrite (render_handlers _ _ Hr), elem_of_app.
  rewrite !list_elem_of_fmap. setoid_rewrite elem_of_seq. split.
  - intros [(i & -> & Hi)|(k & -> & Hk)].
    + exists (Click i). simpl. split; [lia|done].
    + exists (Jump k). simpl. split; [lia|done].
  - intros ([i|k] & Hoff & ->); simpl in *.
    + left. exists i. split; [done|lia].
    + right. exists k. split; [done|lia].
Qed.

Lemma handlers_total w e : game_inv w → ∃ w', dispatch e w = Some w'.
Proof.
  intros Hinv. destruct e as [i|k]; [|by eexists].
  destruct (game_inv_currentBoard _ Hinv) as [board Hcur]. simpl.
  rewrite (handleClick_current _ _ _ Hcur). simpl.
  destruct (_ || _); by eexists.
Qed.

Lemma ui_offered_offered w e : ui_offered w e → offered w e.
Proof. by destruct e. Qed.

Lemma commit_handler_of w e : commit w (handler_of e w) = dispatch e w.
Proof. by destruct e. Qed.

(** The worlds of the user interface are reachable and have boards of nine
    squares. *)
Lemma ui_reachable_inv w :
  ui_reachable w →
  reachable w ∧ ∀ k b, boardAt w k = Some b → length b = 9.
Proof.
  induction 1 as [|w v f w' _ [Hreach Hlen] Hr Hf Hd].
  - split; [constructor|]. intros k b Hb.
    apply boardAt_lt in Hb as Hk. simpl in Hk.
    assert (k = 0) as -> by lia. rewrite boardAt_initial in Hb.
    by simplify_eq.
  - apply (handler_offered _ _ _ Hr) in Hf as (e & Hoff & ->).
    rewrite commit_handler_of in Hd.
    split; [by eapply reachable_step, Hd; [|apply ui_offered_offered]|].
    apply reachable_inv in Hreach as Hinv. destruct e as [i|j].
    + destruct (decide (accepted i w)) as [Hacc|Hrej].
      * destruct (game_inv_currentBoard _ Hinv) as [board Hcur].
        destruct (click_accepted_world _ _ _ _ Hinv Hcur Hacc Hd)
          as (_ & Hl & _ & _ & Hold & Hnew).
        intros k b Hb. apply boardAt_lt in Hb as Hk. rewrite Hl in Hk.
        destruct (decide (k = stepNumber (state w) + 1)) as [->|Hne].
        -- rewrite Hnew in Hb. simplify_eq.
           assert (length board = 9) as Hboard by by eapply Hlen.
           simpl in Hoff.
           rewrite js_set_in_range, length_insert by lia. done.
        -- rewrite Hold in Hb by lia. by eapply Hlen.
      * destruct (click_rejected_world _ _ _ Hinv Hrej Hd) as [_ Hb].
        intros k b. rewrite Hb. apply Hlen.
    + destruct (jump_world _ _ _ Hd) as (_ & _ & _ & Hb).
      intros k b. rewrite Hb. apply Hlen.
Qed.

Lemma ui_run_reachable es w w' :
  ui_reachable w → ui_run es w = Some w' → ui_reachable w'.
Proof.
  revert w. induction es as [|e es IH]; intros w Hw Hrun; simpl in Hrun.
  - by simplify_eq.
  - case_decide as Hoff; [|done].
    destruct (dispatch e w) as [w1|] eqn:Hd; [|done]. simpl in Hrun.
    eapply IH; [|done].
    destruct (ui_reachable_inv _ Hw) as [Hreach%reachable_inv _].
    destruct (game_inv_currentBoard _ Hreach) as [board Hcur].
    eapply ui_reachable_step; [done|by apply render_current| |].
    + eapply handler_offered; [by apply render_current|]. by exists e.
    + by rewrite commit_handler_of.
Qed.

Lemma ui_reachable_run w :
  ui_reachable w → ∃ es, ui_run es initial = Some w.
Proof.
  induction 1 as [|w v f w' _ [es IH] Hr Hf Hd]; [by exists []|].
  apply (handler_offered _ _ _ Hr) in Hf as (e & Hoff & ->).
  rewrite commit_handler_of in Hd.
  exists (es ++ [e]). clear -IH Hoff Hd. revert IH. generalize initial.
  induction es as [|e0 es IHes]; intros w0 Hrun; simpl in *.
  - simplify_eq. rewrite decide_True by done. by rewrite Hd.
  - case_decide; [|done]. destruct (dispatch e0 w0); [|done]. by apply IHes.
Qed.
End rendering.

(** X12: in a reachable world [render] does not throw, and its status line is
    "Winner: X" or "Winner: O" when the shown board has that winner, and
    otherwise "Next player: X" at an even step and "Next player: O" at an odd
    one. *)
Theorem render_status w :
  reachable w →
  ∃ v board,
    render w = Some v ∧ currentBoard w = Some board ∧
    status v =
      match calculateWinner board with
      | Some X => "Winner: X"
      | Some O => "Winner: O"
      | None => if Nat.even (stepNumber (state w)) then "Next player: X"
                else "Next player: O"
      end%string.
Proof.
  intros Hinv%reachable_inv.
  destruct (game_inv_currentBoard _ Hinv) as [board Hcur].
  eexists _, board. split; [by apply render_current|]. split; [done|].
  simpl. rewrite (inv_parity _ Hinv).
  by destruct (calculateWinner board) as [[]|],
       (Nat.even (stepNumber (state w))).
Qed.

Lemma render_status_witness :
  reachable won_game_at_2 ∧
  (status <$> render won_game_at_2) = Some "Next player: X"%string ∧
  (status <$> render won_game) = Some "Winner: X"%string ∧
  ∃ v board,
    render won_game_at_2 = Some v ∧ currentBoard won_game_at_2 = Some board ∧
    status v =
      match calculateWinner board with
      | Some X => "Winner: X"
      | Some O => "Winner: O"
      | None => if Nat.even (stepNumber (state won_game_at_2))
                then "Next player: X" else "Next player: O"
      end%string.
Proof.
  assert (H1 : reachable won_game_at_2).
  { apply (run_reachable
             [Click 0; Click 1; Click 3; Click 4; Click 6; Jump 2] initial);
      [constructor|]. by vm_compute. }
  refine (conj H1 (conj _ (conj _ (render_status won_game_at_2 H1))));
    by vm_compute.
Defined.

(** X13: the board of a rendered view has three rows of three buttons of
    class "square"; the button in row [r], column [c] shows square [3r + c]
    of the board at the step pointer, and its handler is
    [handleClick (3r + c)]. *)
Theorem render_board w v r c :
  render w = Some v → r < 3 → c < 3 →
  length (game_board v) = 3 ∧
  ∃ board row btn,
    currentBoard w = Some board ∧
    game_board v !! r = Some row ∧ length row = 3 ∧
    row !! c = Some btn ∧
    className btn = "square"%string ∧
    children btn = js_get board (3 * r + c) ∧
    button_onClick btn = handleClick (3 * r + c).
Proof.
  intros (board & Hcur & -> & _)%render_Some Hr Hc. split; [done|].
  exists board.
  destruct r as [|[|[|r]]]; [| | |lia];
    (destruct c as [|[|[|c]]]; [| | |lia]);
    eexists _, _; split_and!; done.
Qed.

Lemma render_board_witness :
  1 < 3 ∧ 2 < 3 ∧
  ∃ v, render won_game = Some v ∧
    length (game_board v) = 3 ∧
    ∃ board row btn,
      currentBoard won_game = Some board ∧
      game_board v !! 1 = Some row ∧ length row = 3 ∧
      row !! 2 = Some btn ∧
      className btn = "square"%string ∧
      children btn = js_get board (3 * 1 + 2) ∧
      button_onClick btn = handleClick (3 * 1 + 2).
Proof.
  assert (H0 : currentBoard won_game
               = Some [Some X; Some O; None; Some X; Some O; None;
                       Some X; None; None])
    by (by vm_compute).
  pose proof (render_current _ _ H0) as H1.
  assert (H2 : 1 < 3) by lia.
  assert (H3 : 2 < 3) by lia.
  exact (conj H2 (conj H3 (ex_intro _ _
           (conj H1 (render_board won_game _ 1 2 H1 H2 H3))))).
Defined.

(** X14: in a reachable world every click, at any index, and every jump to
    a step of the history goes through: the handler does not throw, the
    rendering of the new state does not throw either, and the new world is
    reachable. *)
Theorem handlers_never_throw w e :
  reachable w → offered w e →
  ∃ w' v, dispatch e w = Some w' ∧ render w' = Some v ∧
          update e w = Some w' ∧ reachable w'.
Proof.
  intros Hreach Hoff.
  destruct (handlers_total w e (reachable_inv _ Hreach)) as [w' Hd].
  assert (Hreach' : reachable w') by by eapply reachable_step.
  destruct (game_inv_currentBoard _ (reachable_inv _ Hreach')) as [board Hcur].
  pose proof (render_current _ _ Hcur) as Hr.
  eexists w', _. split_and!; [done|exact Hr| |done].
  unfold update. rewrite Hd. simpl. by rewrite Hr.
Qed.

Lemma handlers_never_throw_witness :
  reachable won_game ∧ offered won_game (Jump 2) ∧
  ∃ w' v, dispatch (Jump 2) won_game = Some w' ∧ render w' = Some v ∧
          update (Jump 2) won_game = Some w' ∧ reachable w'.
Proof.
  assert (H1 : reachable won_game).
  { apply (run_reachable [Click 0; Click 1; Click 3; Click 4; Click 6] initial);
      [constructor|]. by vm_compute. }
  assert (H2 : offered won_game (Jump 2)) by (vm_compute; lia).
  exact (conj H1 (conj H2 (handlers_never_throw won_game (Jump 2) H1 H2))).
Defined.

(** X15: a jump to the step pointer's own value changes nothing in a
    reachable world. *)
Theorem jump_to_current_step w :
  reachable w → dispatch (Jump (stepNumber (state w))) w = Some w.
Proof.
  intros Hinv%reachable_inv. pose proof (inv_parity _ Hinv) as Hpar.
  destruct w as [h [hist step x]].
  cbn [state stepNumber xIsNext] in *.
  cbv [dispatch jumpTo commit setState set_history set_stepNumber set_xIsNext
       from_option id state store history stepNumber xIsNext].
  by rewrite mod2_even, <- Hpar.
Qed.

Lemma jump_to_current_step_witness :
  reachable won_game_at_2 ∧
  dispatch (Jump (stepNumber (state won_game_at_2))) won_game_at_2
  = Some won_game_at_2.
Proof.
  assert (H1 : reachable won_game_at_2).
  { apply (run_reachable
             [Click 0; Click 1; Click 3; Click 4; Click 6; Jump 2] initial);
      [constructor|]. by vm_compute. }
  exact (conj H1 (jump_to_current_step won_game_at_2 H1)).
Defined.

(** X16: undo and redo.  After an accepted click in a reachable world, a jump
    back to the step of the click shows the board, step pointer and turn of
    before, keeps the new entry in the history, and a jump forward again
    restores the world the click had produced. *)
Theorem undo_redo w i w' :
  reachable w → accepted i w → dispatch (Click i) w = Some w' →
  ∃ w0,
    dispatch (Jump (stepNumber (state w))) w' = Some w0 ∧
    currentBoard w0 = currentBoard w ∧
    stepNumber (state w0) = stepNumber (state w) ∧
    xIsNext (state w0) = xIsNext (state w) ∧
    history (state w0) = history (state w') ∧
    dispatch (Jump (stepNumber (state w'))) w0 = Some w'.
Proof.
  intros Hreach Hacc Hd. apply reachable_inv in Hreach as Hinv.
  assert (Hinv' : game_inv w') by by eapply game_inv_click.
  destruct (game_inv_currentBoard _ Hinv) as [board Hcur].
  destruct (click_accepted_world _ _ _ _ Hinv Hcur Hacc Hd)
    as (_ & _ & Hstep & _ & Hold & _).
  exists {| store := store w';
            state := {| history := history (state w');
                        stepNumber := stepNumber (state w);
                        xIsNext := Nat.even (stepNumber (state w)) |} |}.
  assert (Hjump : ∀ w1 k,
    dispatch (Jump k) w1
    = Some {| store := store w1;
              state := {| history := history (state w1); stepNumber := k;
                          xIsNext := Nat.even k |} |}).
  { intros w1 k.
    cbv [dispatch jumpTo commit setState set_history set_stepNumber
         set_xIsNext from_option id].
    by rewrite mod2_even. }
  rewrite !Hjump. cbn [state store history stepNumber xIsNext].
  split_and!; try done.
  - change (boardAt w' (stepNumber (state w))
            = boardAt w (stepNumber (state w))).
    apply Hold. lia.
  - by rewrite (inv_parity _ Hinv).
  - rewrite <- (inv_parity _ Hinv'). by destruct w' as [h [hist step x]].
Qed.

Lemma undo_redo_witness :
  reachable (after [Click 0]) ∧ accepted 4 (after [Click 0]) ∧
  ∃ w0,
    dispatch (Jump (stepNumber (state (after [Click 0]))))
             (after [Click 0; Click 4]) = Some w0 ∧
    currentBoard w0 = currentBoard (after [Click 0]) ∧
    stepNumber (state w0) = stepNumber (state (after [Click 0])) ∧
    xIsNext (state w0) = xIsNext (state (after [Click 0])) ∧
    history (state w0) = history (state (after [Click 0; Click 4])) ∧
    dispatch (Jump (stepNumber (state (after [Click 0; Click 4])))) w0
    = Some (after [Click 0; Click 4]).
Proof.
  assert (H1 : reachable (after [Click 0])).
  { apply (run_reachable [Click 0] initial); [constructor|]. by vm_compute. }
  assert (H2 : accepted 4 (after [Click 0]))
    by (apply (bool_decide_unpack _); by vm_compute).
  assert (H3 : dispatch (Click 4) (after [Click 0])
               = Some (after [Click 0; Click 4]))
    by (by vm_compute).
  exact (conj H1 (conj H2 (undo_redo _ 4 _ H1 H2 H3))).
Defined.

(** X17: [jumpTo] does not check its argument.  For a step [k] past the end
    of the history it sets the step pointer to [k] and leaves the history as
    it is, so that no entry is at the step pointer, and the rendering of that
    state throws. *)
Theorem jump_out_of_range w k :
  length (history (state w)) ≤ k →
  ∃ w1,
    dispatch (Jump k) w = Some w1 ∧
    stepNumber (state w1) = k ∧
    history (state w1) = history (state w) ∧
    history (state w1) !! stepNumber (state w1) = None ∧
    render w1 = None ∧
    update (Jump k) w = None.
Proof.
  intros Hk.
  destruct (jumpTo_frame w k) as (w1 & Hjump & Hstep & Hhist & _).
  assert (Hnone : history (state w1) !! stepNumber (state w1) = None).
  { rewrite Hstep, Hhist. by apply lookup_ge_None_2. }
  assert (Hr : render w1 = None).
  { unfold render. by rewrite Hnone. }
  exists w1. split_and!; try done.
  unfold update. rewrite Hjump. simpl. by rewrite Hr.
Qed.

Lemma jump_out_of_range_witness :
  length (history (state initial)) ≤ 1 ∧
  ∃ w1,
    dispatch (Jump 1) initial = Some w1 ∧
    stepNumber (state w1) = 1 ∧
    history (state w1) = history (state initial) ∧
    history (state w1) !! stepNumber (state w1) = None ∧
    render w1 = None ∧
    update (Jump 1) initial = None.
Proof.
  assert (H2 : length (history (state initial)) ≤ 1) by (vm_compute; lia).
  exact (conj H2 (jump_out_of_range initial 1 H2)).
Defined.

(** X18: the worlds a user can bring about through the handlers of the
    rendered views are exactly those reached from the new game by clicks on
    the squares 0 to 8 and jumps to steps of the history. *)
Theorem ui_reachable_iff_run w :
  ui_reachable w ↔ ∃ es, ui_run es initial = Some w.
Proof.
  split; [apply ui_reachable_run|].
  intros [es Hrun]. eapply ui_run_reachable; [constructor|done].
Qed.

(** X19: in the worlds of the user interface every board has nine squares
    and the history has at most ten entries. *)
Theorem ui_bounds w :
  ui_reachable w →
  (∀ k b, boardAt w k = Some b → length b = 9) ∧
  length (history (state w)) ≤ 10.
Proof.
  intros [Hreach Hlen]%ui_reachable_inv. split; [done|].
  apply reachable_inv in Hreach as Hinv. pose proof (inv_step _ Hinv) as Hstep.
  destruct (game_inv_boardAt w (length (history (state w)) - 1) Hinv)
    as [b Hb]; [lia|].
  destruct (reachable_counts _ _ _ Hreach Hb) as [Hsum _].
  pose proof (count_mark_both b) as Hle. rewrite (Hlen _ _ Hb) in Hle. lia.
Qed.

Lemma ui_bounds_witness :
  ui_reachable drawn_game ∧ length (history (state drawn_game)) = 10 ∧
  (∀ k b, boardAt drawn_game k = Some b → length b = 9) ∧
  length (history (state drawn_game)) ≤ 10.
Proof.
  assert (H1 : ui_reachable drawn_game).
  { apply (ui_run_reachable
             [Click 0; Click 1; Click 2; Click 4; Click 3; Click 5; Click 7;
              Click 6; Click 8] initial); [constructor|]. by vm_compute. }
  exact (conj H1 (conj eq_refl (ui_bounds drawn_game H1))).
Defined.

(** X20: after nine moves the game is over: in a world of the user interface
    whose step pointer is 9 the shown board is full and a click on any of its
    squares is ignored. *)
Theorem full_board_ignores_clicks w i :
  ui_reachable w → stepNumber (state w) = 9 → i < 9 →
  ∃ board w',
    currentBoard w = Some board ∧ full board ∧
    ¬ accepted i w ∧
    dispatch (Click i) w = Some w' ∧ state w' = state w.
Proof.
  intros [Hreach Hlen]%ui_reachable_inv Hnine Hi.
  apply reachable_inv in Hreach as Hinv.
  destruct (game_inv_currentBoard _ Hinv) as [board Hcur].
  rewrite currentBoard_boardAt, Hnine in Hcur.
  destruct (reachable_counts _ _ _ Hreach Hcur) as [Hsum _].
  pose proof (Hlen _ _ Hcur) as Hboard.
  assert (Hfull : full board).
  { apply count_mark_full. lia. }
  assert (Hrej : ¬ accepted i w).
  { rewrite <- Hnine, <- currentBoard_boardAt in Hcur.
    rewrite (accepted_iff _ _ _ Hcur). intros [_ Hempty].
    destruct (lookup_lt_is_Some_2 board i) as [v Hv]; [lia|].
    unfold js_get in Hempty. rewrite Hv in Hempty. simpl in Hempty. subst v.
    unfold full in Hfull. rewrite Forall_lookup in Hfull.
    by apply (Hfull _ _ Hv). }
  destruct (handlers_total w (Click i) Hinv) as [w' Hd].
  destruct (click_rejected_world _ _ _ Hinv Hrej Hd) as [Hst _].
  exists board, w'. rewrite currentBoard_boardAt, Hnine. done.
Qed.

Lemma full_board_ignores_clicks_witness :
  ui_reachable drawn_game ∧ stepNumber (state drawn_game) = 9 ∧
  ∃ board w',
    currentBoard drawn_game = Some board ∧ full board ∧
    ¬ accepted 4 drawn_game ∧
    dispatch (Click 4) drawn_game = Some w' ∧ state w' = state drawn_game.
Proof.
  assert (H1 : ui_reachable drawn_game).
  { apply (ui_run_reachable
             [Click 0; Click 1; Click 2; Click 4; Click 3; Click 5; Click 7;
              Click 6; Click 8] initial); [constructor|]. by vm_compute. }
  assert (H2 : stepNumber (state drawn_game) = 9) by (by vm_compute).
  assert (H3 : 4 < 9) by lia.
  exact (conj H1 (conj H2 (full_board_ignores_clicks drawn_game 4 H1 H2 H3))).
Defined.

Section lines_of_reachable_boards.
Implicit Types (w : world) (k : nat) (b : list cell) (m : mark).

(** A complete line on a reachable board belongs to the player who moved
    last. *)
Lemma reachable_line_mover w k b l m :
  reachable w → boardAt w k = Some b → l ∈ lines → line_match b l m →
  ∃ k', k = k' + 1 ∧ m = mover k'.
Proof.
  intros Hreach Hb Hl Hmatch.
  destruct (reachable_history_legal _ Hreach) as [H0 Hchain].
  destruct k as [|k].
  { rewrite H0 in Hb. simplify_eq. destruct Hmatch as [Ha _].
    apply lookup_replicate in Ha as [? _]. done. }
  exists k. split; [lia|]. apply boardAt_lt in Hb as Hlt.
  destruct (Hchain k) as (b0 & b1 & Hb0 & Hb1 & i & Hnone & Hempty & ->); [lia|].
  replace (S k) with (k + 1) in Hb by lia. rewrite Hb1 in Hb. simplify_eq.
  destruct (decide (m = mover k)) as [|Hne]; [done|].
  apply line_match_before in Hmatch; [|done].
  apply calculateWinner_None_open in Hnone. rewrite Forall_forall in Hnone.
  by destruct (Hnone l Hl m).
Qed.
End lines_of_reachable_boards.

(** X21: on a board of a reachable world all complete lines carry the same
    mark, so [calculateWinner] returns the mark of any complete line, not
    only of the first in its list. *)
Theorem winner_is_unique w k b l m :
  reachable w → boardAt w k = Some b → l ∈ lines → line_match b l m →
  calculateWinner b = Some m ∧
  ∀ l' m', l' ∈ lines → line_match b l' m' → m' = m.
Proof.
  intros Hreach Hb Hl Hmatch.
  destruct (reachable_line_mover _ _ _ _ _ Hreach Hb Hl Hmatch)
    as (k' & -> & ->).
  assert (Hsame : ∀ l' m', l' ∈ lines → line_match b l' m' → m' = mover k').
  { intros l' m' Hl' Hmatch'.
    destruct (reachable_line_mover _ _ _ _ _ Hreach Hb Hl' Hmatch')
      as (k'' & Hk & ->).
    by replace k'' with k' by lia. }
  split; [|done].
  destruct (first_match b lines)
    as [Hopen|(pre & l0 & post & m0 & Hlines & Hpre & Hl0)].
  { rewrite Forall_forall in Hopen. by destruct (Hopen l Hl (mover k')). }
  unfold calculateWinner.
  rewrite Hlines, (calculateWinner_from_first _ _ _ _ _ Hpre Hl0). f_equal.
  apply (Hsame l0); [|done]. rewrite Hlines, elem_of_app, elem_of_cons. auto.
Qed.

Lemma winner_is_unique_witness :
  reachable won_game ∧ (0, 3, 6) ∈ lines ∧
  calculateWinner (default [] (boardAt won_game 5)) = Some X ∧
  ∀ l' m', l' ∈ lines → line_match (default [] (boardAt won_game 5)) l' m' →
           m' = X.
Proof.
  assert (H1 : reachable won_game).
  { apply (run_reachable [Click 0; Click 1; Click 3; Click 4; Click 6] initial);
      [constructor|]. by vm_compute. }
  assert (H2 : boardAt won_game 5 = Some (default [] (boardAt won_game 5)))
    by (by vm_compute).
  assert (H3 : (0, 3, 6) ∈ lines)
    by (apply (bool_decide_unpack _); by vm_compute).
  assert (H4 : line_match (default [] (boardAt won_game 5)) (0, 3, 6) X)
    by (apply (bool_decide_unpack _); by vm_compute).
  exact (conj H1 (conj H3 (winner_is_unique won_game 5 _ _ X H1 H2 H3 H4))).
Defined.

(** X22: in a reachable world the history is not empty and the step pointer
    is the index of one of its entries, whose board is allocated. *)
Theorem step_pointer_in_range w :
  reachable w →
  stepNumber (state w) < length (history (state w)) ∧
  ∃ e board,
    history (state w) !! stepNumber (state w) = Some e ∧
    store w !! squares e = Some board.
Proof.
  intros Hinv%reachable_inv. split; [apply (inv_step _ Hinv)|].
  destruct (game_inv_currentBoard _ Hinv) as [board Hcur].
  unfold currentBoard in Hcur.
  destruct (history (state w) !! stepNumber (state w)) as [e|]; [|done].
  by exists e, board.
Qed.

Lemma step_pointer_in_range_witness :
  reachable won_game_at_2 ∧
  stepNumber (state won_game_at_2) < length (history (state won_game_at_2)) ∧
  ∃ e board,
    history (state won_game_at_2) !! stepNumber (state won_game_at_2) = Some e ∧
    store won_game_at_2 !! squares e = Some board.
Proof.
  assert (H1 : reachable won_game_at_2).
  { apply (run_reachable
             [Click 0; Click 1; Click 3; Click 4; Click 6; Jump 2] initial);
      [constructor|]. by vm_compute. }
  exact (conj H1 (step_pointer_in_range won_game_at_2 H1)).
Defined.
